(** * clean-html: the element classifier, the tree extractor and the
      markdown post-processor of [main.go], embedded and verified.

    Go strings are byte sequences; they are modelled as [list byte].
    Indices and lengths are [nat]: every index the program computes is
    bounded by the length of a string held in memory, so no machine
    integer wraps. *)

From Stdlib Require Import Strings.Byte Strings.String NArith ZArith Lia.
From stdpp Require Import base list sorting.

Local Open Scope byte_scope.

Abbreviation bytes := (list byte).

(** A Go string literal, as its bytes. *)
Definition lit (s : string) : bytes := list_byte_of_string s.

#[global] Instance byte_eq_dec : EqDecision byte := Byte.byte_eq_dec.

(** ** The functions of Go's [strings] package that [main.go] calls.

    They are library code; each is written after its documented
    behaviour, on bytes. *)
Module strings.

(** [len(s) >= len(prefix) && s[:len(prefix)] == prefix] *)
Definition HasPrefix (s prefix : bytes) : bool :=
  bool_decide (length prefix ≤ length s)
  && bool_decide (take (length prefix) s = prefix).

(** Index of the first instance of [substr] in [s], or -1. *)
Fixpoint Index (s substr : bytes) : Z :=
  if HasPrefix s substr then 0%Z
  else match s with
       | [] => (-1)%Z
       | _ :: t =>
           let r := Index t substr in
           if (r <? 0)%Z then (-1)%Z else (r + 1)%Z
       end.

Definition Contains (s substr : bytes) : bool := (0 <=? Index s substr)%Z.

(** Left-to-right scan replacing the non-overlapping instances of [old];
    [skip] counts the bytes of a matched instance still to be passed.
    [old] is not empty at any call site of the program (an empty [old]
    has a separate meaning in Go, between runes, which is not modelled). *)
Fixpoint replaceFrom (old new : bytes) (skip : nat) (s : bytes) : bytes :=
  match s with
  | [] => []
  | c :: t =>
      match skip with
      | S k => replaceFrom old new k t
      | 0 =>
          if HasPrefix s old
          then new ++ replaceFrom old new (length old - 1) t
          else c :: replaceFrom old new 0 t
      end
  end.

Definition ReplaceAll (s old new : bytes) : bytes := replaceFrom old new 0 s.

(** The pieces of [s] between the non-overlapping instances of [sep]
    ([sep] not empty); one piece more than there are instances. *)
Fixpoint splitFrom (sep : bytes) (skip : nat) (s : bytes) : list bytes :=
  match s with
  | [] => [[]]
  | c :: t =>
      match skip with
      | S k => splitFrom sep k t
      | 0 =>
          if HasPrefix s sep
          then [] :: splitFrom sep (length sep - 1) t
          else match splitFrom sep 0 t with
               | w :: ws => (c :: w) :: ws
               | [] => [[c]]
               end
      end
  end.

Definition Split (s sep : bytes) : list bytes := splitFrom sep 0 s.

Fixpoint Join (elems : list bytes) (sep : bytes) : bytes :=
  match elems with
  | [] => []
  | [e] => e
  | e :: rest => e ++ sep ++ Join rest sep
  end.

(** White space "as defined by Unicode" ([unicode.IsSpace]), seen through
    UTF-8: the six ASCII bytes, U+0085 and U+00A0 (two bytes), and
    U+1680, U+2000..U+200A, U+2028, U+2029, U+202F, U+205F, U+3000
    (three bytes).  A byte sequence that is not a shortest-form encoding
    decodes to the error rune, which is not white space. *)
Definition asciiSpace (c : byte) : bool :=
  bool_decide (c ∈ [x09; x0a; x0b; x0c; x0d; x20]).

Definition space2 (b1 b2 : byte) : bool :=
  bool_decide (b1 = xc2) && bool_decide (b2 ∈ [x85; xa0]).

Definition space3 (b1 b2 b3 : byte) : bool :=
  bool_decide (b1 = xe1) && bool_decide (b2 = x9a) && bool_decide (b3 = x80)
  || bool_decide (b1 = xe2) && bool_decide (b2 = x80)
     && ((128 <=? Byte.to_N b3)%N && (Byte.to_N b3 <=? 138)%N
         || bool_decide (b3 ∈ [xa8; xa9; xaf]))
  || bool_decide (b1 = xe2) && bool_decide (b2 = x81) && bool_decide (b3 = x9f)
  || bool_decide (b1 = xe3) && bool_decide (b2 = x80) && bool_decide (b3 = x80).

(** Drop leading white-space runes. *)
Fixpoint trimLeft (s : bytes) : bytes :=
  match s with
  | [] => []
  | c :: t =>
      if asciiSpace c then trimLeft t
      else match t with
           | [] => s
           | d :: t2 =>
               if space2 c d then trimLeft t2
               else match t2 with
                    | [] => s
                    | e :: t3 => if space3 c d e then trimLeft t3 else s
                    end
           end
  end.

(** Drop trailing white-space runes; [r] is the string reversed, so its
    head is the last byte. *)
Fixpoint trimRightRev (r : bytes) : bytes :=
  match r with
  | [] => []
  | c :: t =>
      if asciiSpace c then trimRightRev t
      else match t with
           | [] => r
           | d :: t2 =>
               if space2 d c then trimRightRev t2
               else match t2 with
                    | [] => r
                    | e :: t3 => if space3 e d c then trimRightRev t3 else r
                    end
           end
  end.

Definition trimRight (s : bytes) : bytes := rev (trimRightRev (rev s)).

(** Width in bytes of the white-space rune a string starts with, 0 when
    it starts with none; and the same for a reversed string, whose head is
    the last byte. *)
Definition spaceWidth (s : bytes) : nat :=
  match s with
  | [] => 0
  | c :: t =>
      if asciiSpace c then 1
      else match t with
           | [] => 0
           | d :: t2 =>
               if space2 c d then 2
               else match t2 with
                    | [] => 0
                    | e :: _ => if space3 c d e then 3 else 0
                    end
           end
  end.

Definition spaceWidthRev (r : bytes) : nat :=
  match r with
  | [] => 0
  | c :: t =>
      if asciiSpace c then 1
      else match t with
           | [] => 0
           | d :: t2 =>
               if space2 d c then 2
               else match t2 with
                    | [] => 0
                    | e :: _ => if space3 e d c then 3 else 0
                    end
           end
  end.

Definition TrimSpace (s : bytes) : bytes := trimRight (trimLeft s).

(** [strings.ToUpper] on the one-byte string [[c]], the only way the
    program calls it ([strings.ToUpper(word[:1])]).  An ASCII lower-case
    letter is mapped to its capital and any other ASCII byte is kept.  A
    byte of 0x80 or more is, alone, not valid UTF-8: the general path
    ([strings.Map] with [unicode.ToUpper]) decodes it to the error rune
    U+FFFD and writes that rune's encoding, EF BF BD. *)
Definition ToUpper (c : byte) : bytes :=
  let n := Byte.to_N c in
  if (n <? 128)%N then
    if (97 <=? n)%N && (n <=? 122)%N
    then [default c (Byte.of_N (n - 32))]
    else [c]
  else [xef; xbf; xbd].

(** [len(s) >= len(suffix) && s[len(s)-len(suffix):] == suffix] *)
Definition HasSuffix (s suffix : bytes) : bool :=
  bool_decide (length suffix ≤ length s)
  && bool_decide (drop (length s - length suffix) s = suffix).

(** [s[:len(s)-len(suffix)]] when [s] ends with [suffix], [s] otherwise. *)
Definition TrimSuffix (s suffix : bytes) : bytes :=
  if HasSuffix s suffix then take (length s - length suffix) s else s.

End strings.

(** ** The functions of [path/filepath] that [processHTMLFile] calls, on a
    system whose separator is the slash and whose paths have no volume
    name.  The loops run down from the end; [n] is the index plus one. *)
Module filepath.

Definition IsPathSeparator (c : byte) : bool := bool_decide (c = "/").

(** [for i := len(path)-1; i >= 0 && !IsPathSeparator(path[i]); i--] with
    [if path[i] == '.' { return path[i:] }] inside and [return ""] after. *)
Fixpoint extLoop (n : nat) (path : bytes) : bytes :=
  match n with
  | 0 => []
  | S i =>
      match path !! i with
      | None => []
      | Some c =>
          if IsPathSeparator c then []
          else if bool_decide (c = ".") then drop i path
          else extLoop i path
      end
  end.

Definition Ext (path : bytes) : bytes := extLoop (length path) path.

(** [for len(path) > 0 && IsPathSeparator(path[len(path)-1])] with
    [path = path[0 : len(path)-1]]; [n] is the current length. *)
Fixpoint stripTrailing (n : nat) (path : bytes) : bytes :=
  match n with
  | 0 => []
  | S i =>
      match path !! i with
      | None => []
      | Some c =>
          if IsPathSeparator c then stripTrailing i path else take (S i) path
      end
  end.

(** [i := len(path)-1; for i >= 0 && !IsPathSeparator(path[i]) { i-- }]
    followed by [if i >= 0 { path = path[i+1:] }]. *)
Fixpoint lastElement (n : nat) (path : bytes) : bytes :=
  match n with
  | 0 => path
  | S i =>
      match path !! i with
      | None => path
      | Some c =>
          if IsPathSeparator c then drop (S i) path else lastElement i path
      end
  end.

Definition Base (path : bytes) : bytes :=
  if bool_decide (path = []) then lit "."
  else
    let path := stripTrailing (length path) path in
    let path := lastElement (length path) path in
    if bool_decide (path = []) then lit "/" else path.

End filepath.

(** ** Brace-span stripping ([processHTMLFile], the last loop)

<<
    for i := 0; i < len(mdText); i++ {
        if mdText[i] == '{' {
            j := i
            for j < len(mdText) && mdText[j] != '}' { j++ }
            if j < len(mdText) { i = j; continue }
        }
        result.WriteByte(mdText[i])
    }
>>
    Both loops are run on fuel; [None] is "out of fuel".  [s !! i] is
    [Some] exactly when [i < len(s)]. *)
Fixpoint scanClose (fuel : nat) (s : bytes) (j : nat) : option nat :=
  match fuel with
  | 0 => None
  | S fuel' =>
      match s !! j with
      | None => Some j
      | Some c =>
          if bool_decide (c = "}") then Some j else scanClose fuel' s (S j)
      end
  end.

Fixpoint braceLoop (fuel : nat) (s : bytes) (i : nat) (result : bytes)
  : option bytes :=
  match fuel with
  | 0 => None
  | S fuel' =>
      match s !! i with
      | None => Some result
      | Some c =>
          if bool_decide (c = "{") then
            match scanClose (S (length s)) s i with
            | None => None
            | Some j =>
                if bool_decide (j < length s)
                then braceLoop fuel' s (S j) result
                else braceLoop fuel' s (S i) (result ++ [c])
            end
          else braceLoop fuel' s (S i) (result ++ [c])
      end
  end.

(** The pass on a text, writing into the builder [result]. *)
Definition stripBracesInto (result s : bytes) : option bytes :=
  braceLoop (S (length s)) s 0 result.

Definition stripBraces (s : bytes) : option bytes := stripBracesInto [] s.

(** The two-state scanner of the design notes (Copying, InBraceSpan),
    by recursion on the text.  It is the reference against which the
    index loop is verified; in state Copying a [{] opens a span only when
    a [}] follows somewhere. *)
Definition hasClose (s : bytes) : bool := bool_decide ("}" ∈ s).

Fixpoint scanner (inSpan : bool) (s : bytes) : bytes :=
  match s with
  | [] => []
  | c :: t =>
      if inSpan then
        if bool_decide (c = "}") then scanner false t else scanner true t
      else if bool_decide (c = "{") && hasClose t then scanner true t
      else c :: scanner false t
  end.

(** Number of bytes before the first [}] (the length when there is none). *)
Fixpoint closeOffset (s : bytes) : nat :=
  match s with
  | [] => 0
  | c :: t => if bool_decide (c = "}") then 0 else S (closeOffset t)
  end.

(** ** Parsed documents ([golang.org/x/net/html])

    A node carries its type, its data (the tag name of an element, the
    characters of a text node) and its attributes; the sibling chain
    [FirstChild], [NextSibling] is the ordered list of children. *)
Module html.

Inductive NodeType :=
| ErrorNode | TextNode | DocumentNode | ElementNode
| CommentNode | DoctypeNode | RawNode.

#[global] Instance NodeType_eq_dec : EqDecision NodeType.
Proof. solve_decision. Defined.

Record Attribute := { Namespace : bytes; Key : bytes; Val : bytes }.

#[warning="-register-all"]
Inductive Node :=
  mkNode { Type_ : NodeType; Data : bytes;
           Attr : list Attribute; Children : list Node }.

End html.
Import html.

(** ** Element classifier *)

(** The inner loop of [hasNoAttributes]: is [key] one of [excludeAttrs]? *)
Fixpoint keyExcluded (key : bytes) (excludeAttrs : list bytes) : bool :=
  match excludeAttrs with
  | [] => false
  | excludeAttr :: rest =>
      if bool_decide (key = excludeAttr) then true else keyExcluded key rest
  end.

(** The outer loop of [hasNoAttributes], over [n.Attr]. *)
Fixpoint noAttrIn (attrs : list Attribute) (excludeAttrs : list bytes) : bool :=
  match attrs with
  | [] => true
  | attr :: rest =>
      if keyExcluded (Key attr) excludeAttrs then false
      else noAttrIn rest excludeAttrs
  end.

Definition hasNoAttributes (n : Node) (excludeAttrs : list bytes) : bool :=
  noAttrIn (Attr n) excludeAttrs.

Fixpoint getTextContent (n : Node) : bytes :=
  match n with
  | mkNode ty data _ cs =>
      let text := if bool_decide (ty = TextNode) then data else [] in
      let text := fold_left (fun text c => text ++ getTextContent c) cs text in
      strings.TrimSpace text
  end.

(** The flattened text content as the specification words it, for
    comparison with [getTextContent]: the data of all text nodes of the
    subtree in document order, concatenated, then trimmed at both ends
    once. *)
Fixpoint allText (n : Node) : bytes :=
  match n with
  | mkNode ty data _ cs =>
      (if bool_decide (ty = TextNode) then data else [])
      ++ concat (map allText cs)
  end.

Definition flattenedText (n : Node) : bytes := strings.TrimSpace (allText n).

(** The loop of the [div] case. *)
Fixpoint hasPhotogimg (attrs : list Attribute) : bool :=
  match attrs with
  | [] => false
  | attr :: rest =>
      if bool_decide (Key attr = lit "class")
         && bool_decide (Val attr = lit "photogimg")
      then true
      else hasPhotogimg rest
  end.

Definition isTargetElement (n : Node) : bool :=
  if negb (bool_decide (Type_ n = ElementNode)) then false
  else if bool_decide (Data n = lit "ul") then
    hasNoAttributes n [lit "id"; lit "style"]
  else if bool_decide (Data n = lit "p") then
    if negb (hasNoAttributes n [lit "class"; lit "style"]) then false
    else
      let content := getTextContent n in
      negb (strings.Contains content (lit "Copyright"))
  else if bool_decide (Data n = lit "h3") then
    if negb (hasNoAttributes n [lit "class"; lit "id"]) then false
    else
      let content := getTextContent n in
      negb (strings.Contains content (lit "District Map"))
  else if bool_decide (Data n = lit "h1") || bool_decide (Data n = lit "h2") then
    hasNoAttributes n [lit "class"; lit "id"]
  else if bool_decide (Data n = lit "div") then
    hasPhotogimg (Attr n)
  else false.

(** ** Tree extractor

    [html.Render] is library code and enters as the parameter
    [renderNode].  The closure [f] appends to the captured slice
    [extracted]; the slice is threaded through the walk. *)
Fixpoint extractWalk (renderNode : Node → bytes) (n : Node)
    (extracted : list bytes) : list bytes :=
  if isTargetElement n then extracted ++ [renderNode n]
  else
    match n with
    | mkNode _ _ _ cs =>
        fold_left (fun extracted c => extractWalk renderNode c extracted)
          cs extracted
    end.

Definition extractContent (renderNode : Node → bytes) (doc : Node)
  : list bytes :=
  extractWalk renderNode doc [].

(** Positions in a document: the child indices on the way down from the
    root; the empty path is the root. *)
Abbreviation path := (list nat).

Fixpoint nodeAt (n : Node) (p : path) : option Node :=
  match p with
  | [] => Some n
  | i :: p' =>
      match Children n !! i with
      | Some c => nodeAt c p'
      | None => None
      end
  end.

(** The walk of [extractWalk] again, recording where it emits instead of
    what: the positions of the emitted nodes, in emission order. *)
Fixpoint emittedAt (n : Node) : list path :=
  if isTargetElement n then [[]]
  else
    match n with
    | mkNode _ _ _ cs =>
        (fix children (i : nat) (cs : list Node) : list path :=
           match cs with
           | [] => []
           | c :: rest => map (cons i) (emittedAt c) ++ children (S i) rest
           end) 0 cs
    end.

(** The positions emitted under the children [cs], the first of which
    has index [i] (the inner loop of [emittedAt], by name). *)
Fixpoint emittedFrom (i : nat) (cs : list Node) : list path :=
  match cs with
  | [] => []
  | c :: rest => map (cons i) (emittedAt c) ++ emittedFrom (S i) rest
  end.

(** [p] is the position of an accepted node none of whose proper
    ancestors is accepted (the ancestors of a position are its proper
    prefixes). *)
Definition firstAccepted (doc : Node) (p : path) : Prop :=
  (∃ n, nodeAt doc p = Some n ∧ isTargetElement n = true)
  ∧ ∀ q, q `prefix_of` p → q ≠ p →
         ∃ m, nodeAt doc q = Some m ∧ isTargetElement m = false.

(** Document order on positions: a node comes before its descendants,
    and the subtree of an earlier sibling before that of a later one. *)
Fixpoint docBefore (p q : path) : bool :=
  match p, q with
  | [], [] => false
  | [], _ :: _ => true
  | _ :: _, [] => false
  | i :: p', j :: q' =>
      bool_decide (i < j) || bool_decide (i = j) && docBefore p' q'
  end.

(** ** Title derivation *)

(** The loop [for i, word := range words]: [n] iterations remain, [i] is
    the index.  [word[:1]] is the first byte of [word], [word[1:]] the
    rest. *)
Fixpoint capitalizeLoop (n i : nat) (words : list bytes) : list bytes :=
  match n with
  | 0 => words
  | S n' =>
      match words !! i with
      | None => words
      | Some word =>
          let words :=
            match word with
            | [] => words
            | c :: rest => <[i := strings.ToUpper c ++ rest]> words
            end in
          capitalizeLoop n' (S i) words
      end
  end.

(** What one iteration leaves at index [i]: the word with its first byte
    passed through [ToUpper], an empty word as it is. *)
Definition capitalizeWord (word : bytes) : bytes :=
  match word with
  | [] => []
  | c :: rest => strings.ToUpper c ++ rest
  end.

Definition formatDirName (name : bytes) : bytes :=
  let words := strings.Split name (lit "-") in
  let words := capitalizeLoop (length words) 0 words in
  strings.Join words (lit " ").

(** ** Post-processing and front matter ([processHTMLFile]) *)

Definition nl : bytes := [x0a].
Definition dq : bytes := [x22].

(** The name the title is derived from, and the path of the intermediate
    document (the first lines of [processHTMLFile]). *)
Definition fileNameWithoutExt (inputFile : bytes) : bytes :=
  let baseFileName := filepath.Base inputFile in
  strings.TrimSuffix baseFileName (filepath.Ext baseFileName).

Definition outputFile (inputFile : bytes) : bytes :=
  strings.TrimSuffix inputFile (lit ".html") ++ lit "_processed.html".

(** Marker removal. *)
Definition removeMarkers (mdText : bytes) : bytes :=
  strings.ReplaceAll mdText (lit "**::**") [].

Definition rewriteUp (line : bytes) : bytes :=
  strings.ReplaceAll line (lit "(../") (lit "(").

Definition rewriteIndex (line : bytes) : bytes :=
  strings.ReplaceAll line (lit "/index.html)") (lit ")").

(** The loop over [lines], appending to [filteredLines]. *)
Fixpoint filterLoop (lines filteredLines : list bytes) : list bytes :=
  match lines with
  | [] => filteredLines
  | line :: rest =>
      if strings.HasPrefix (strings.TrimSpace line) (lit ":::")
      then filterLoop rest filteredLines
      else
        let line := rewriteUp line in
        let line := rewriteIndex line in
        filterLoop rest (filteredLines ++ [line])
  end.

(** Directive-line filtering. *)
Definition filterLines (mdText : bytes) : bytes :=
  let lines := strings.Split mdText nl in
  let filteredLines := filterLoop lines [] in
  strings.Join filteredLines nl.

(** The metadata block as the builder holds it after the eleven
    [WriteString] calls; [date] is [time.Now().Format("2006-01-02")]. *)
Definition writeMetadata (result title date category tag : bytes) : bytes :=
  let result := result ++ (lit "---" ++ nl) in
  let result := result ++ (lit "title: " ++ dq ++ title ++ dq ++ nl) in
  let result := result ++ (lit "description: " ++ dq ++ title ++ dq ++ nl) in
  let result := result ++ (lit "meta_title: " ++ dq ++ title ++ dq ++ nl) in
  let result := result ++ (lit "author: " ++ (dq ++ dq) ++ nl) in
  let result := result ++ (lit "date: " ++ date ++ nl) in
  let result := result ++ (lit "categories: [" ++ dq ++ category ++ dq ++ lit "]" ++ nl) in
  let result := result ++ (lit "image: " ++ (dq ++ dq) ++ nl) in
  let result := result ++ (lit "tags: [" ++ dq ++ tag ++ dq ++ lit "]" ++ nl) in
  let result := result ++ (lit "draft: " ++ lit "false" ++ nl) in
  result ++ (lit "---" ++ nl ++ nl).

(** The document written to the [.md] file, from the base file name, the
    date, the two labels and the converter's output [mdContent]
    (lines 201 to 251; reading and writing files and running the
    converter are outside the model). *)
Definition buildDocument (fileNameWithoutExt date category tag mdContent : bytes)
  : option bytes :=
  let result := [] in
  let title := formatDirName fileNameWithoutExt in
  let result := writeMetadata result title date category tag in
  let mdText := mdContent in
  let mdText := removeMarkers mdText in
  let mdText := filterLines mdText in
  stripBracesInto result mdText.

(* ================================================================== *)
(** * Verification *)

(** Membership of a byte in a given string is settled by evaluation. *)
Lemma not_elem_of_bytes (c : byte) (s : bytes) :
  bool_decide (c ∈ s) = false → c ∉ s.
Proof. apply bool_decide_eq_false. Qed.

Section BraceLoop.

Lemma drop_lookup_cons (s : bytes) i c :
  s !! i = Some c → drop i s = c :: drop (S i) s.
Proof.
  revert i; induction s as [|x s IH]; intros [|i] H; simplify_eq/=; auto.
Qed.

Lemma drop_lookup_nil (s : bytes) i : s !! i = None → drop i s = [].
Proof. intros H. apply drop_ge. by apply lookup_ge_None. Qed.

Lemma scanClose_spec fuel (s : bytes) j :
  length s - j < fuel →
  scanClose fuel s j = Some (j + closeOffset (drop j s)).
Proof.
  revert j; induction fuel as [|fuel IH]; intros j Hf; [lia|].
  simpl. destruct (s !! j) as [c|] eqn:Hj.
  - rewrite (drop_lookup_cons _ _ _ Hj). simpl.
    apply lookup_lt_Some in Hj as Hlt.
    case_bool_decide.
    + f_equal; lia.
    + rewrite IH by lia. f_equal; lia.
  - rewrite (drop_lookup_nil _ _ Hj). simpl. f_equal; lia.
Qed.

Lemma closeOffset_le (s : bytes) : closeOffset s ≤ length s.
Proof. induction s; simpl; [lia|case_bool_decide; lia]. Qed.

Lemma hasClose_offset (s : bytes) :
  hasClose s = bool_decide (closeOffset s < length s).
Proof.
  unfold hasClose. apply bool_decide_ext.
  induction s as [|c s IH]; simpl.
  - rewrite elem_of_nil. lia.
  - rewrite elem_of_cons, IH. case_bool_decide; [split; [lia|auto]|].
    split; [intros [|]; [congruence|lia]|right; lia].
Qed.

Lemma scanner_span (s : bytes) :
  scanner true s = scanner false (drop (S (closeOffset s)) s).
Proof.
  induction s as [|c s IH]; simpl; [done|].
  case_bool_decide; simpl; [by rewrite drop_0|done].
Qed.

Lemma braceLoop_spec fuel (s : bytes) i result :
  length s - i < fuel →
  braceLoop fuel s i result = Some (result ++ scanner false (drop i s)).
Proof.
  revert i result; induction fuel as [|fuel IH]; intros i result Hf; [lia|].
  cbn [braceLoop]. rewrite scanClose_spec by lia.
  destruct (s !! i) as [c|] eqn:Hi.
  - apply lookup_lt_Some in Hi as Hlt.
    rewrite (drop_lookup_cons _ _ _ Hi). simpl scanner. simpl closeOffset.
    case_bool_decide as Hc; simpl.
    + rewrite (bool_decide_eq_false_2 (c = "}")) by (subst; discriminate).
      rewrite hasClose_offset. rewrite length_drop.
      rewrite (bool_decide_ext (i + S (closeOffset (drop (S i) s)) < length s)
                 (closeOffset (drop (S i) s) < length s - S i)) by lia.
      case_bool_decide.
      * rewrite IH by lia. rewrite scanner_span, drop_drop.
        do 3 f_equal; lia.
      * rewrite IH by lia. by rewrite <- app_assoc.
    + rewrite IH by lia. by rewrite <- app_assoc.
  - by rewrite (drop_lookup_nil _ _ Hi), app_nil_r.
Qed.

(** The loop always ends within its fuel and computes the scanner. *)
Lemma stripBracesInto_scanner result (s : bytes) :
  stripBracesInto result s = Some (result ++ scanner false s).
Proof. unfold stripBracesInto. rewrite braceLoop_spec by lia. by rewrite drop_0. Qed.

Lemma stripBraces_scanner (s : bytes) :
  stripBraces s = Some (scanner false s).
Proof. apply (stripBracesInto_scanner []). Qed.

Lemma not_hasClose (s : bytes) : "}" ∉ s → hasClose s = false.
Proof. intros. by apply bool_decide_eq_false_2. Qed.

Lemma scanner_no_close (s : bytes) : "}" ∉ s → scanner false s = s.
Proof.
  induction s as [|c s IH]; simpl; [done|].
  intros [_ Hs]%not_elem_of_cons.
  rewrite (not_hasClose _ Hs), andb_false_r. by rewrite IH.
Qed.

Lemma hasClose_app_r (p suf : bytes) :
  "}" ∉ suf → hasClose (p ++ suf) = hasClose p.
Proof.
  intros. apply bool_decide_ext. rewrite elem_of_app. tauto.
Qed.

Lemma scanner_app_no_close b (p suf : bytes) :
  "}" ∉ suf → (b = true → "}" ∈ p) →
  scanner b (p ++ suf) = scanner b p ++ suf.
Proof.
  intros Hsuf. revert b; induction p as [|c p IH]; intros b Hb; simpl.
  - destruct b; [by destruct (not_elem_of_nil "}"); apply Hb|].
    by apply scanner_no_close.
  - destruct b.
    + case_bool_decide as Hc; [by apply IH|].
      apply IH. intros _. specialize (Hb eq_refl).
      apply elem_of_cons in Hb as [Heq|Hin]; [by symmetry in Heq|done].
    + rewrite hasClose_app_r by done.
      destruct (bool_decide (c = "{") && hasClose p) eqn:E; simpl.
      * apply IH. intros _. apply andb_true_iff in E as [_ E].
        by apply bool_decide_eq_true in E.
      * f_equal. by apply IH.
Qed.

Lemma scanner_copy c (s : bytes) :
  c ≠ "{" → scanner false (c :: s) = c :: scanner false s.
Proof. intros. simpl. by rewrite bool_decide_eq_false_2. Qed.

Lemma closeOffset_app (mid rest : bytes) :
  "}" ∉ mid → closeOffset (mid ++ "}" :: rest) = length mid.
Proof.
  induction mid as [|c mid IH]; simpl; [done|].
  intros [? ?]%not_elem_of_cons.
  rewrite bool_decide_eq_false_2 by done. by rewrite IH.
Qed.

Lemma scanner_skip (mid rest : bytes) :
  "}" ∉ mid →
  scanner false ("{" :: mid ++ "}" :: rest) = scanner false rest.
Proof.
  intros Hmid. simpl.
  assert (hasClose (mid ++ "}" :: rest) = true) as ->.
  { apply bool_decide_eq_true_2. rewrite elem_of_app, elem_of_cons. auto. }
  simpl. rewrite scanner_span, closeOffset_app by done.
  replace (S (length mid)) with (length mid + 1) by lia.
  by rewrite <- drop_drop, drop_app_length.
Qed.

End BraceLoop.

(** ** Brace-span stripping: the claims *)

(** C5. When a [{] is followed by a later [}], the span from the [{]
    through the first [}] is skipped, whatever lies between (no nesting);
    a byte other than [{] is copied through in place; the pass returns a
    result on every input.  In particular "a{b}c" gives "ac", "a{b}{c}d"
    gives "ad" and "a{b{c}d}e" gives "ad}e". *)
Theorem stripBraces_spans :
  (∀ s : bytes, ∃ out, stripBraces s = Some out) ∧
  (∀ (c : byte) (s : bytes),
     c ≠ "{" → stripBraces (c :: s) = cons c <$> stripBraces s) ∧
  (∀ mid rest : bytes,
     "}" ∉ mid → stripBraces ("{" :: mid ++ "}" :: rest) = stripBraces rest) ∧
  stripBraces (lit "a{b}c") = Some (lit "ac") ∧
  stripBraces (lit "a{b}{c}d") = Some (lit "ad") ∧
  stripBraces (lit "a{b{c}d}e") = Some (lit "ad}e").
Proof.
  split; [|split; [|split]].
  - intros s. eexists. apply stripBraces_scanner.
  - intros c s Hc. rewrite !stripBraces_scanner. simpl fmap.
    by rewrite scanner_copy.
  - intros mid rest Hmid. rewrite !stripBraces_scanner.
    by rewrite scanner_skip.
  - by vm_compute.
Qed.

Lemma stripBraces_spans_witness :
  stripBraces ("a" :: lit "{b}c") = cons "a" <$> stripBraces (lit "{b}c")
  ∧ stripBraces ("{" :: lit "b{c" ++ "}" :: lit "d}e") = stripBraces (lit "d}e").
Proof.
  destruct stripBraces_spans as (_ & Hcopy & Hskip & _). split.
  - apply Hcopy. discriminate.
  - apply Hskip. by apply not_elem_of_bytes.
Defined.

(** C1, as the code has it.  A [{] with no [}] anywhere after it is not
    the start of a span: the guard [j < len(mdText)] fails and the byte is
    written like any other, and so is everything after it.  The text
    before it is processed as if it stood alone.  In particular "a{bc"
    gives "a{bc". *)
Theorem stripBraces_unterminated (pre rest : bytes) :
  "}" ∉ rest →
  stripBraces (pre ++ "{" :: rest)
  = (λ out, out ++ "{" :: rest) <$> stripBraces pre.
Proof.
  intros Hrest. rewrite !stripBraces_scanner. simpl fmap. f_equal.
  apply scanner_app_no_close; [|done].
  rewrite not_elem_of_cons. split; [discriminate|done].
Qed.

Lemma stripBraces_unterminated_witness :
  stripBraces (lit "a" ++ "{" :: lit "bc") = Some (lit "a{bc").
Proof.
  rewrite (stripBraces_unterminated (lit "a") (lit "bc")).
  - reflexivity.
  - by apply not_elem_of_bytes.
Defined.

(** C1 as stated fails: on "a{bc" the output is the input, not "a". *)
Lemma stripBraces_unterminated_kept :
  stripBraces (lit "a{bc") = Some (lit "a{bc")
  ∧ stripBraces (lit "a{bc") ≠ Some (lit "a").
Proof. split; [reflexivity|discriminate]. Qed.

(** ** Facts about the [strings] functions *)
Section StringsFacts.

Import strings.

Lemma HasPrefix_nil (s : bytes) : HasPrefix s [] = true.
Proof.
  unfold HasPrefix. rewrite !bool_decide_eq_true_2; [done|by rewrite take_0|simpl; lia].
Qed.

Lemma HasPrefix_nil_cons x (p : bytes) : HasPrefix [] (x :: p) = false.
Proof. unfold HasPrefix. rewrite bool_decide_eq_false_2; [done|simpl; lia]. Qed.

Lemma HasPrefix_cons c (s : bytes) x (p : bytes) :
  HasPrefix (c :: s) (x :: p) = bool_decide (c = x) && HasPrefix s p.
Proof.
  unfold HasPrefix. simpl. apply eq_true_iff_eq.
  rewrite !andb_true_iff, !bool_decide_eq_true.
  split.
  - intros [? [= -> ?]]. repeat split; [lia|done].
  - intros [-> [? ->]]. split; [lia|done].
Qed.

Lemma HasPrefix_iff (s p : bytes) :
  HasPrefix s p = true ↔ ∃ t, s = p ++ t.
Proof.
  revert s; induction p as [|x p IH]; intros s.
  - rewrite HasPrefix_nil. split; [eauto|done].
  - destruct s as [|c s].
    + rewrite HasPrefix_nil_cons. split; [done|intros [? [=]]].
    + rewrite HasPrefix_cons, andb_true_iff, bool_decide_eq_true, IH.
      split.
      * intros [-> [t ->]]. eauto.
      * intros [t [= -> ->]]. eauto.
Qed.

Lemma HasPrefix_app (p t : bytes) : HasPrefix (p ++ t) p = true.
Proof. apply HasPrefix_iff. eauto. Qed.

Lemma HasPrefix_app_same (u s p : bytes) :
  HasPrefix (u ++ s) (u ++ p) = HasPrefix s p.
Proof.
  induction u as [|c u IH]; [done|]. simpl.
  by rewrite HasPrefix_cons, bool_decide_eq_true_2.
Qed.

(** A string that starts with another byte than [p] does not start
    with [p]. *)
Lemma HasPrefix_head_ne c (s : bytes) x (p : bytes) :
  c ≠ x → HasPrefix (c :: s) (x :: p) = false.
Proof. intros. by rewrite HasPrefix_cons, bool_decide_eq_false_2. Qed.

Lemma Index_bound (s sub : bytes) : (-1 ≤ Index s sub)%Z.
Proof.
  induction s as [|c s IH]; simpl; repeat case_match; lia.
Qed.

Lemma Contains_iff (s sub : bytes) :
  Contains s sub = true ↔ ∃ a b, s = a ++ sub ++ b.
Proof.
  unfold Contains. rewrite Z.leb_le.
  induction s as [|c s IH]; simpl.
  - destruct (HasPrefix [] sub) eqn:E.
    + apply HasPrefix_iff in E as [t E]. split; [|done].
      intros _. by exists [], t.
    + split; [lia|]. intros (a & b & Heq).
      destruct a; [|done]. simpl in Heq.
      assert (HasPrefix [] sub = true) by (apply HasPrefix_iff; eauto).
      congruence.
  - destruct (HasPrefix (c :: s) sub) eqn:E.
    + apply HasPrefix_iff in E as [t E]. split; [|done].
      intros _. by exists [], t.
    + pose proof (Index_bound s sub).
      destruct (Z.ltb_spec (Index s sub) 0) as [Hlt|Hge].
      * split; [lia|]. intros (a & b & Heq).
        destruct a as [|x a]; simpl in Heq.
        { assert (HasPrefix (c :: s) sub = true) by (apply HasPrefix_iff; eauto).
          congruence. }
        injection Heq as -> ->.
        assert (0 ≤ Index (a ++ sub ++ b) sub)%Z by (apply IH; eauto). lia.
      * split; [|lia]. intros _.
        destruct IH as [IH _]. destruct (IH Hge) as (a & b & ->).
        by exists (c :: a), b.
Qed.

Lemma Contains_false_app (a s sub : bytes) :
  Contains (a ++ s) sub = false → Contains s sub = false.
Proof.
  intros H. apply not_true_is_false. intros (x & y & ->)%Contains_iff.
  apply not_true_iff_false in H. apply H. apply Contains_iff.
  exists (a ++ x), y. by rewrite <- app_assoc.
Qed.

Lemma Contains_false_prefix (s sub : bytes) :
  Contains s sub = false → HasPrefix s sub = false.
Proof.
  intros H. apply not_true_is_false. intros [t ->]%HasPrefix_iff.
  apply not_true_iff_false in H. apply H. apply Contains_iff.
  by exists [], t.
Qed.

(** *** ReplaceAll *)

Lemma replaceFrom_skip old new (u t : bytes) :
  replaceFrom old new (length u) (u ++ t) = replaceFrom old new 0 t.
Proof. induction u as [|c u IH]; simpl; [by destruct t|done]. Qed.

Lemma ReplaceAll_nil old new : ReplaceAll [] old new = [].
Proof. done. Qed.

Lemma ReplaceAll_match x (old new t : bytes) :
  ReplaceAll ((x :: old) ++ t) (x :: old) new
  = new ++ ReplaceAll t (x :: old) new.
Proof.
  unfold ReplaceAll. simpl replaceFrom at 1.
  change (x :: old ++ t) with ((x :: old) ++ t).
  rewrite HasPrefix_app. simpl length. rewrite Nat.sub_0_r.
  by rewrite replaceFrom_skip.
Qed.

Lemma ReplaceAll_step c (t old new : bytes) :
  HasPrefix (c :: t) old = false →
  ReplaceAll (c :: t) old new = c :: ReplaceAll t old new.
Proof. intros H. unfold ReplaceAll. simpl. by rewrite H. Qed.

(** No instance of [old] starts inside a stretch that lacks the first
    byte of [old]: the stretch is copied. *)
Lemma ReplaceAll_copy x (old new u t : bytes) :
  x ∉ u →
  ReplaceAll (u ++ t) (x :: old) new = u ++ ReplaceAll t (x :: old) new.
Proof.
  induction u as [|c u IH]; [done|]. intros [Hc Hu]%not_elem_of_cons.
  simpl. rewrite ReplaceAll_step by (apply HasPrefix_head_ne; congruence).
  by rewrite IH.
Qed.

(** A prefix of the output that lacks the first byte of [new] was
    copied from the input. *)
Lemma ReplaceAll_prefix_copied y (old new u t : bytes) :
  y ∉ u →
  HasPrefix (ReplaceAll t old (y :: new)) u = true →
  HasPrefix t u = true.
Proof.
  revert t; induction u as [|c u IH]; intros t Hu Hp.
  - apply HasPrefix_nil.
  - apply not_elem_of_cons in Hu as [Hc Hu].
    destruct t as [|d t]; [by rewrite ReplaceAll_nil in Hp|].
    unfold ReplaceAll in Hp. simpl in Hp.
    destruct (HasPrefix (d :: t) old).
    + rewrite HasPrefix_cons in Hp. apply andb_true_iff in Hp as [Hp _].
      apply bool_decide_eq_true in Hp. congruence.
    + rewrite HasPrefix_cons in *. apply andb_true_iff in Hp as [-> Hp].
      simpl. by apply IH.
Qed.

End StringsFacts.

(** ** The two link rewrites *)
Section LinkRewrites.

Import strings.

Lemma rewriteUp_match (t : bytes) :
  rewriteUp (lit "(../" ++ t) = "(" :: rewriteUp t.
Proof. exact (ReplaceAll_match "(" (lit "../") (lit "(") t). Qed.

Lemma rewriteIndex_match (t : bytes) :
  rewriteIndex (lit "/index.html)" ++ t) = ")" :: rewriteIndex t.
Proof. exact (ReplaceAll_match "/" (lit "index.html)") (lit ")") t). Qed.

Lemma rewriteUp_copy (u t : bytes) :
  "(" ∉ u → rewriteUp (u ++ t) = u ++ rewriteUp t.
Proof. exact (ReplaceAll_copy "(" (lit "../") (lit "(") u t). Qed.

Lemma rewriteIndex_copy (u t : bytes) :
  "/" ∉ u → rewriteIndex (u ++ t) = u ++ rewriteIndex t.
Proof. exact (ReplaceAll_copy "/" (lit "index.html)") (lit ")") u t). Qed.

Lemma rewriteUp_prefix_copied (u t : bytes) :
  "(" ∉ u → HasPrefix (rewriteUp t) u = true → HasPrefix t u = true.
Proof. exact (ReplaceAll_prefix_copied "(" (lit "(../") [] u t). Qed.

Lemma rewriteIndex_prefix_copied (u t : bytes) :
  ")" ∉ u → HasPrefix (rewriteIndex t) u = true → HasPrefix t u = true.
Proof. exact (ReplaceAll_prefix_copied ")" (lit "/index.html)") [] u t). Qed.

(** Rewriting the tail cannot complete an instance of the other
    pattern at the head. *)
Lemma rewriteUp_no_new_index c (t : bytes) :
  HasPrefix (c :: t) (lit "/index.html)") = false →
  HasPrefix (c :: rewriteUp t) (lit "/index.html)") = false.
Proof.
  intros H. apply not_true_is_false. intros Hp.
  apply not_true_iff_false in H. apply H.
  change (lit "/index.html)") with ("/" :: lit "index.html)") in *.
  rewrite HasPrefix_cons in *. apply andb_true_iff in Hp as [-> Hp].
  simpl. apply rewriteUp_prefix_copied; [|done].
  by apply not_elem_of_bytes.
Qed.

Lemma rewriteIndex_no_new_up c (t : bytes) :
  HasPrefix (c :: t) (lit "(../") = false →
  HasPrefix (c :: rewriteIndex t) (lit "(../") = false.
Proof.
  intros H. apply not_true_is_false. intros Hp.
  apply not_true_iff_false in H. apply H.
  change (lit "(../") with ("(" :: lit "../") in *.
  rewrite HasPrefix_cons in *. apply andb_true_iff in Hp as [-> Hp].
  simpl. apply rewriteIndex_prefix_copied; [|done].
  by apply not_elem_of_bytes.
Qed.

(** On every line the code's order acts like the other order as long
    as no "(../" runs into an "/index.html)" through a shared slash. *)
Lemma rewrites_commute_len (n : nat) : ∀ line : bytes,
  length line < n →
  Contains line (lit "(../index.html)") = false →
  rewriteIndex (rewriteUp line) = rewriteUp (rewriteIndex line).
Proof.
  induction n as [|n IH]; intros line Hlen Hno; [lia|].
  destruct (HasPrefix line (lit "(../")) eqn:EA.
  { apply HasPrefix_iff in EA as [t ->].
    assert (HasPrefix ("/" :: t) (lit "/index.html)") = false) as Hslash.
    { apply Contains_false_prefix in Hno. revert Hno.
      change (lit "(../index.html)") with (lit "(.." ++ lit "/index.html)").
      change (lit "(../" ++ t) with (lit "(.." ++ "/" :: t).
      by rewrite HasPrefix_app_same. }
    rewrite rewriteUp_match.
    unfold rewriteIndex at 1.
    rewrite ReplaceAll_step by (by apply HasPrefix_head_ne).
    fold (rewriteIndex (rewriteUp t)).
    change (lit "(../" ++ t) with (lit "(.." ++ "/" :: t).
    rewrite rewriteIndex_copy by (by apply not_elem_of_bytes).
    unfold rewriteIndex at 2. rewrite ReplaceAll_step by done.
    fold (rewriteIndex t).
    change (lit "(.." ++ "/" :: rewriteIndex t)
      with (lit "(../" ++ rewriteIndex t).
    rewrite rewriteUp_match. f_equal.
    apply IH; [rewrite length_app in Hlen; simpl in Hlen; lia|].
    by apply Contains_false_app in Hno. }
  destruct (HasPrefix line (lit "/index.html)")) eqn:EB.
  { apply HasPrefix_iff in EB as [t ->].
    rewrite rewriteUp_copy by (by apply not_elem_of_bytes).
    rewrite !rewriteIndex_match.
    unfold rewriteUp at 2.
    rewrite ReplaceAll_step by (by apply HasPrefix_head_ne).
    fold (rewriteUp (rewriteIndex t)). f_equal.
    apply IH; [rewrite length_app in Hlen; simpl in Hlen; lia|].
    by apply Contains_false_app in Hno. }
  destruct line as [|c t]; [done|].
  unfold rewriteUp at 1. rewrite ReplaceAll_step by done. fold (rewriteUp t).
  unfold rewriteIndex at 2. rewrite ReplaceAll_step by done.
  fold (rewriteIndex t).
  unfold rewriteIndex at 1.
  rewrite ReplaceAll_step by (by apply rewriteUp_no_new_index).
  fold (rewriteIndex (rewriteUp t)).
  unfold rewriteUp at 2.
  rewrite ReplaceAll_step by (by apply rewriteIndex_no_new_up).
  fold (rewriteUp (rewriteIndex t)). f_equal.
  apply IH; [simpl in Hlen; lia|].
  by apply (Contains_false_app [c]) in Hno.
Qed.

End LinkRewrites.

(** C3, as the code has it.  The two rewrites give the same line in
    either order on every line that does not contain "(../index.html)",
    the one way an instance of "(../" and an instance of "/index.html)"
    can share a byte. *)
Theorem rewrites_commute (line : bytes) :
  strings.Contains line (lit "(../index.html)") = false →
  rewriteIndex (rewriteUp line) = rewriteUp (rewriteIndex line).
Proof. apply (rewrites_commute_len (S (length line))). lia. Qed.

Lemma rewrites_commute_witness :
  rewriteIndex (rewriteUp (lit "see (../a/index.html) and (../b)"))
  = rewriteUp (rewriteIndex (lit "see (../a/index.html) and (../b)")).
Proof. apply rewrites_commute. reflexivity. Defined.

(** C3 as stated fails: on "(../index.html)" the code's order gives
    "(index.html)" and the opposite order gives "(..)". *)
Lemma rewrites_do_not_commute :
  rewriteIndex (rewriteUp (lit "(../index.html)")) = lit "(index.html)"
  ∧ rewriteUp (rewriteIndex (lit "(../index.html)")) = lit "(..)"
  ∧ rewriteIndex (rewriteUp (lit "(../index.html)"))
    ≠ rewriteUp (rewriteIndex (lit "(../index.html)")).
Proof. split; [reflexivity|split; [reflexivity|discriminate]]. Qed.

(** ** Splitting on one byte and joining *)
Section SplitJoin.

Import strings.

Lemma Split_cons x c (t : bytes) :
  Split (c :: t) [x]
  = if bool_decide (c = x) then [] :: Split t [x]
    else match Split t [x] with
         | w :: ws => (c :: w) :: ws
         | [] => [[c]]
         end.
Proof.
  unfold Split. cbn [splitFrom]. rewrite HasPrefix_cons, HasPrefix_nil.
  by rewrite andb_true_r.
Qed.

(** A string without the separator is one piece. *)
Lemma Split_no_sep x (e : bytes) : x ∉ e → Split e [x] = [e].
Proof.
  induction e as [|c e IH]; [done|]. intros [Hc He]%not_elem_of_cons.
  rewrite Split_cons, bool_decide_eq_false_2 by congruence.
  by rewrite IH.
Qed.

Lemma Split_app_sep x (e r : bytes) :
  x ∉ e → Split (e ++ x :: r) [x] = e :: Split r [x].
Proof.
  induction e as [|c e IH]; simpl.
  - intros _. by rewrite Split_cons, bool_decide_eq_true_2.
  - intros [Hc He]%not_elem_of_cons.
    rewrite Split_cons, bool_decide_eq_false_2 by congruence.
    by rewrite IH.
Qed.

(** Splitting undoes joining, for pieces free of the separator. *)
Lemma Split_Join x (elems : list bytes) :
  elems ≠ [] → Forall (λ e, x ∉ e) elems →
  Split (Join elems [x]) [x] = elems.
Proof.
  induction elems as [|e rest IH]; [done|]. intros _ Hall.
  apply Forall_cons in Hall as [He Hrest].
  destruct rest as [|e2 rest].
  - simpl. by apply Split_no_sep.
  - change (Join (e :: e2 :: rest) [x])
      with (e ++ x :: Join (e2 :: rest) [x]).
    rewrite Split_app_sep by done. f_equal. by apply IH.
Qed.

End SplitJoin.

(** ** Directive-line filtering *)
Section LineFilter.

Import strings.

Lemma filterLoop_spec (lines filteredLines : list bytes) :
  filterLoop lines filteredLines
  = filteredLines
    ++ map (λ l, rewriteIndex (rewriteUp l))
         (filter (λ l, HasPrefix (TrimSpace l) (lit ":::") = false) lines).
Proof.
  revert filteredLines; induction lines as [|line rest IH]; intros acc.
  - by rewrite app_nil_r.
  - cbn [filterLoop]. rewrite filter_cons.
    destruct (HasPrefix (TrimSpace line) (lit ":::")) eqn:E.
    + rewrite decide_False by done. apply IH.
    + rewrite decide_True by done. rewrite IH. simpl.
      by rewrite <- app_assoc.
Qed.

End LineFilter.

(** C8. The pass splits the text on newline, drops the lines that begin
    with ":::" once trimmed, applies the two rewrites to the others and
    joins them with newline in their order: on the text made of the lines
    [ls] it returns the text made of the rewritten survivors of [ls].
    The line "  ::: note" is dropped; "text (../page/index.html)" becomes
    "text (page)". *)
Theorem filterLines_spec :
  (∀ mdText : bytes,
     filterLines mdText
     = strings.Join
         (map (λ l, rewriteIndex (rewriteUp l))
            (filter (λ l, strings.HasPrefix (strings.TrimSpace l) (lit ":::") = false)
               (strings.Split mdText nl)))
         nl) ∧
  (∀ ls : list bytes,
     Forall (λ l, x0a ∉ l) ls →
     filterLines (strings.Join ls nl)
     = strings.Join
         (map (λ l, rewriteIndex (rewriteUp l))
            (filter (λ l, strings.HasPrefix (strings.TrimSpace l) (lit ":::") = false)
               ls))
         nl) ∧
  filterLines (lit "  ::: note") = [] ∧
  filterLines (lit "a" ++ nl ++ lit "  ::: note" ++ nl ++ lit "b")
  = lit "a" ++ nl ++ lit "b" ∧
  filterLines (lit "text (../page/index.html)") = lit "text (page)".
Proof.
  assert (∀ mdText : bytes,
     filterLines mdText
     = strings.Join
         (map (λ l, rewriteIndex (rewriteUp l))
            (filter (λ l, strings.HasPrefix (strings.TrimSpace l) (lit ":::") = false)
               (strings.Split mdText nl)))
         nl) as Hgen.
  { intros mdText. unfold filterLines. by rewrite filterLoop_spec. }
  split; [exact Hgen|]. split; [|by vm_compute].
  intros ls Hls. rewrite Hgen.
  destruct ls as [|l ls]; [reflexivity|].
  unfold nl. by rewrite Split_Join.
Qed.

Lemma filterLines_spec_witness :
  filterLines (strings.Join [lit "a"; lit ":::b"; lit "(../c)"] nl)
  = strings.Join
      (map (λ l, rewriteIndex (rewriteUp l))
         (filter (λ l, strings.HasPrefix (strings.TrimSpace l) (lit ":::") = false)
            [lit "a"; lit ":::b"; lit "(../c)"]))
      nl.
Proof.
  destruct filterLines_spec as (_ & Hls & _). apply Hls.
  repeat constructor; by apply not_elem_of_bytes.
Defined.

(** ** Title derivation *)
Section Title.

Import strings.

Lemma capitalizeLoop_spec (n i : nat) (words : list bytes) :
  i + n = length words →
  capitalizeLoop n i words
  = take i words ++ map capitalizeWord (drop i words).
Proof.
  revert i words; induction n as [|n IH]; intros i words Hlen.
  - rewrite drop_ge by lia. rewrite take_ge by lia. by rewrite app_nil_r.
  - cbn [capitalizeLoop].
    destruct (words !! i) as [word|] eqn:Hi;
      [|apply lookup_ge_None in Hi; lia].
    assert (match word with
            | [] => words
            | c :: rest => <[i := ToUpper c ++ rest]> words
            end = <[i := capitalizeWord word]> words) as ->.
    { destruct word; [|done]. by rewrite list_insert_id. }
    rewrite IH by (rewrite length_insert; lia).
    rewrite drop_insert_lt by lia.
    rewrite (take_S_r _ i (capitalizeWord word))
      by (apply list_lookup_insert_eq; apply lookup_lt_Some in Hi; lia).
    rewrite take_insert_ge by lia.
    rewrite (drop_S words word i) by done. simpl.
    by rewrite <- app_assoc.
Qed.

(** The loop run from the start capitalizes every word. *)
Lemma formatDirName_map (name : bytes) :
  formatDirName name
  = Join (map capitalizeWord (Split name (lit "-"))) (lit " ").
Proof. unfold formatDirName. by rewrite capitalizeLoop_spec. Qed.

(** On a name made of the segments [segs] (none containing a hyphen)
    the title is made of the capitalized segments, one space between
    neighbours; an empty segment stays empty. *)
Lemma formatDirName_segments (segs : list bytes) :
  Forall (λ seg, "-" ∉ seg) segs →
  formatDirName (Join segs (lit "-"))
  = Join (map capitalizeWord segs) (lit " ").
Proof.
  intros Hsegs. rewrite formatDirName_map.
  destruct segs as [|seg segs]; [reflexivity|].
  change (lit "-") with ["-"]. by rewrite Split_Join.
Qed.

(** On an ASCII byte [ToUpper] gives one byte: the capital of a
    lower-case letter, the byte itself otherwise. *)
Lemma ToUpper_ascii (c : byte) :
  (Byte.to_N c < 128)%N →
  ToUpper c
  = [if (97 <=? Byte.to_N c)%N && (Byte.to_N c <=? 122)%N
     then default c (Byte.of_N (Byte.to_N c - 32)) else c].
Proof.
  intros Hc. unfold ToUpper.
  destruct (N.ltb_spec (Byte.to_N c) 128); [|lia].
  by destruct (_ && _).
Qed.

End Title.

(** C4, as the code has it.  Every hyphen segment is capitalized, the
    last one too: "tokyo-city-guide" gives "Tokyo City Guide". *)
Theorem formatDirName_tokyo :
  formatDirName (lit "tokyo-city-guide") = lit "Tokyo City Guide".
Proof. reflexivity. Qed.

(** C4 as stated fails: the result is not "Tokyo City guide". *)
Lemma formatDirName_tokyo_not_lower :
  formatDirName (lit "tokyo-city-guide") ≠ lit "Tokyo City guide".
Proof. discriminate. Qed.

(** C9 at a segment that starts with a letter outside ASCII.  [word[:1]]
    is the first byte of the letter only; for "été" (C3 A9 74 C3 A9) that
    byte becomes the three bytes of U+FFFD and the second byte of the
    letter is left behind it, so the first character is neither
    capitalized nor kept. *)
Theorem formatDirName_non_ascii_head :
  formatDirName [xc3; xa9; x74; xc3; xa9]
  = [xef; xbf; xbd; xa9; x74; xc3; xa9].
Proof. reflexivity. Qed.

(** ** Front matter and body *)

(** C10. The document is the metadata block followed by the processed
    converter output.  The three passes run on the converter output
    alone: whatever bytes the title, the category and the tag hold, the
    block stands at the start of the document as it was written, line by
    line, and the body after it is what the passes make of [mdContent]. *)
Theorem buildDocument_front_matter
    (fileNameWithoutExt date category tag mdContent : bytes) :
  let title := formatDirName fileNameWithoutExt in
  let frontMatter :=
    lit "---" ++ nl
    ++ lit "title: " ++ dq ++ title ++ dq ++ nl
    ++ lit "description: " ++ dq ++ title ++ dq ++ nl
    ++ lit "meta_title: " ++ dq ++ title ++ dq ++ nl
    ++ lit "author: " ++ dq ++ dq ++ nl
    ++ lit "date: " ++ date ++ nl
    ++ lit "categories: [" ++ dq ++ category ++ dq ++ lit "]" ++ nl
    ++ lit "image: " ++ dq ++ dq ++ nl
    ++ lit "tags: [" ++ dq ++ tag ++ dq ++ lit "]" ++ nl
    ++ lit "draft: false" ++ nl
    ++ lit "---" ++ nl ++ nl in
  ∃ body,
    stripBraces (filterLines (removeMarkers mdContent)) = Some body
    ∧ buildDocument fileNameWithoutExt date category tag mdContent
      = Some (frontMatter ++ body).
Proof.
  intros title frontMatter.
  exists (scanner false (filterLines (removeMarkers mdContent))).
  split; [apply stripBraces_scanner|].
  unfold buildDocument. rewrite stripBracesInto_scanner. do 2 f_equal.
  unfold writeMetadata, frontMatter, title. simpl.
  by repeat (rewrite <- ?app_assoc; simpl).
Qed.

(** The block is kept as written even when the labels hold the bytes the
    passes look for. *)
Example buildDocument_special_labels :
  buildDocument (lit "a-b") (lit "2024-01-02") (lit "{c}:::") (lit "(../t/index.html)")
    (lit "x{y}z **::**")
  = Some (lit "---" ++ nl
          ++ lit "title: " ++ dq ++ lit "A B" ++ dq ++ nl
          ++ lit "description: " ++ dq ++ lit "A B" ++ dq ++ nl
          ++ lit "meta_title: " ++ dq ++ lit "A B" ++ dq ++ nl
          ++ lit "author: " ++ dq ++ dq ++ nl
          ++ lit "date: 2024-01-02" ++ nl
          ++ lit "categories: [" ++ dq ++ lit "{c}:::" ++ dq ++ lit "]" ++ nl
          ++ lit "image: " ++ dq ++ dq ++ nl
          ++ lit "tags: [" ++ dq ++ lit "(../t/index.html)" ++ dq ++ lit "]" ++ nl
          ++ lit "draft: false" ++ nl
          ++ lit "---" ++ nl ++ nl
          ++ lit "xz ").
Proof. reflexivity. Qed.

(** ** Element classifier *)
Section Classifier.

Lemma keyExcluded_iff (key : bytes) (excludeAttrs : list bytes) :
  keyExcluded key excludeAttrs = true ↔ key ∈ excludeAttrs.
Proof.
  induction excludeAttrs as [|e rest IH]; simpl.
  - by rewrite elem_of_nil.
  - rewrite elem_of_cons. case_bool_decide; [tauto|].
    rewrite IH. tauto.
Qed.

Lemma noAttrIn_iff (attrs : list Attribute) (excludeAttrs : list bytes) :
  noAttrIn attrs excludeAttrs = true
  ↔ ∀ a, a ∈ attrs → Key a ∉ excludeAttrs.
Proof.
  induction attrs as [|attr rest IH]; simpl.
  - split; [|done]. intros _ a Ha. by apply elem_of_nil in Ha.
  - destruct (keyExcluded (Key attr) excludeAttrs) eqn:E.
    + apply keyExcluded_iff in E. split; [done|].
      intros H. destruct (H attr); [by left|done].
    + rewrite IH. split.
      * intros H a [->|Ha]%elem_of_cons; [|by apply H].
        intros Hin%keyExcluded_iff. congruence.
      * intros H a Ha. apply H. by right.
Qed.

(** [hasNoAttributes] on two keys. *)
Lemma hasNoAttributes_two (n : Node) (k1 k2 : bytes) :
  hasNoAttributes n [k1; k2] = true
  ↔ ∀ a, a ∈ Attr n → Key a ≠ k1 ∧ Key a ≠ k2.
Proof.
  unfold hasNoAttributes. rewrite noAttrIn_iff.
  apply forall_proper; intros a.
  rewrite !not_elem_of_cons. split; [tauto|].
  intros H Ha. destruct (H Ha). repeat split; [done..|apply not_elem_of_nil].
Qed.

Lemma hasPhotogimg_iff (attrs : list Attribute) :
  hasPhotogimg attrs = true
  ↔ ∃ a, a ∈ attrs ∧ Key a = lit "class" ∧ Val a = lit "photogimg".
Proof.
  induction attrs as [|attr rest IH]; simpl.
  - split; [done|]. intros (a & Ha & _). by apply elem_of_nil in Ha.
  - destruct (bool_decide (Key attr = lit "class")
              && bool_decide (Val attr = lit "photogimg")) eqn:E.
    + apply andb_true_iff in E as [E1%bool_decide_eq_true E2%bool_decide_eq_true].
      split; [|done]. intros _. exists attr. split; [by left|done].
    + rewrite IH. split.
      * intros (a & Ha & Hk). exists a. split; [by right|done].
      * intros (a & [->|Ha]%elem_of_cons & Hk & Hv); [|by eauto].
        rewrite !bool_decide_eq_true_2 in E by done. done.
Qed.

End Classifier.

(** The five rules as the code evaluates them, the text of a [p] and of
    an [h3] being what [getTextContent] returns: a node is kept exactly
    when it is an element and is a [ul] without an attribute keyed [id]
    or [style], a [p] without [class] or [style] whose text lacks
    "Copyright", an [h3] without [class] or [id] whose text lacks
    "District Map", an [h1] or [h2] without [class] or [id], or a [div]
    with an attribute of key [class] and value "photogimg". *)
Lemma isTargetElement_rules (n : Node) :
  isTargetElement n = true ↔
  Type_ n = ElementNode ∧
  ( (Data n = lit "ul"
     ∧ ∀ a, a ∈ Attr n → Key a ≠ lit "id" ∧ Key a ≠ lit "style")
  ∨ (Data n = lit "p"
     ∧ (∀ a, a ∈ Attr n → Key a ≠ lit "class" ∧ Key a ≠ lit "style")
     ∧ strings.Contains (getTextContent n) (lit "Copyright") = false)
  ∨ (Data n = lit "h3"
     ∧ (∀ a, a ∈ Attr n → Key a ≠ lit "class" ∧ Key a ≠ lit "id")
     ∧ strings.Contains (getTextContent n) (lit "District Map") = false)
  ∨ ((Data n = lit "h1" ∨ Data n = lit "h2")
     ∧ ∀ a, a ∈ Attr n → Key a ≠ lit "class" ∧ Key a ≠ lit "id")
  ∨ (Data n = lit "div"
     ∧ ∃ a, a ∈ Attr n ∧ Key a = lit "class" ∧ Val a = lit "photogimg") ).
Proof.
  rewrite <- !hasNoAttributes_two, <- hasPhotogimg_iff.
  unfold isTargetElement. destruct n as [ty d attrs cs].
  set (n := mkNode ty d attrs cs). simpl Type_. simpl Data. simpl Attr.
  destruct (bool_decide (ty = ElementNode)) eqn:Ety; simpl;
    [apply bool_decide_eq_true in Ety
    |apply bool_decide_eq_false in Ety; split; [done|tauto]].
  repeat case_bool_decide; try subst d; simpl;
    repeat match goal with
           | |- context [hasNoAttributes n ?l] =>
               destruct (hasNoAttributes n l); simpl
           end;
    rewrite ?negb_true_iff;
    intuition (try done; try congruence;
               try match goal with
                   | H : lit _ = lit _ |- _ => by vm_compute in H
                   end).
Qed.

(** The loop [text += getTextContent(c)] appends the children's texts,
    each as the recursive call returns it. *)
Lemma getTextContent_children ty (d : bytes) attrs (cs : list Node) :
  getTextContent (mkNode ty d attrs cs)
  = strings.TrimSpace
      ((if bool_decide (ty = TextNode) then d else [])
       ++ concat (map getTextContent cs)).
Proof.
  cbn [getTextContent]. f_equal.
  generalize (if bool_decide (ty = TextNode) then d else []).
  induction cs as [|c cs IH]; intros text; simpl.
  - by rewrite app_nil_r.
  - by rewrite IH, <- app_assoc.
Qed.

(** C2 on the code.  The text of a node is its own data followed by the
    texts of its children, trimmed; as the text of a child is computed by
    the same function, it is trimmed before it is appended.  At a heading
    whose text is split over a child element,
    [<h3>District <b>Map</b></h3>], the space before the child is lost:
    the classifier sees "DistrictMap" and keeps the heading, while the
    text of the subtree trimmed at its two ends only is "District Map". *)
Theorem getTextContent_trims_inside :
  (∀ ty (d : bytes) attrs (cs : list Node),
     getTextContent (mkNode ty d attrs cs)
     = strings.TrimSpace
         ((if bool_decide (ty = TextNode) then d else [])
          ++ concat (map getTextContent cs))) ∧
  let h3 :=
    mkNode ElementNode (lit "h3") []
      [ mkNode TextNode (lit "District ") [] [];
        mkNode ElementNode (lit "b") [] [mkNode TextNode (lit "Map") [] []] ] in
  getTextContent h3 = lit "DistrictMap"
  ∧ flattenedText h3 = lit "District Map"
  ∧ strings.Contains (flattenedText h3) (lit "District Map") = true
  ∧ isTargetElement h3 = true.
Proof. split; [apply getTextContent_children|by vm_compute]. Qed.

(** C6 on the code.  With the flattened text of the specification (the
    text of the subtree, trimmed once at its two ends) the five rules
    describe the classifier at every node but a [p] or an [h3] whose
    text [getTextContent] computes differently: the attribute tests look
    at keys only, any other tag and any node that is not an element is
    rejected.  At a [p] or an [h3] whose text is split over child
    elements the code leaves the rules: [<h3>District <b>Map</b></h3>]
    has the flattened text "District Map" and is kept, and
    [<p>Copy <b>right</b> 2024</p>] has the flattened text
    "Copy right 2024", without "Copyright", and is rejected. *)
Theorem isTargetElement_flattened_text :
  (∀ n : Node,
     (Data n = lit "p" ∨ Data n = lit "h3" →
      getTextContent n = flattenedText n) →
     (isTargetElement n = true ↔
      Type_ n = ElementNode ∧
      ( (Data n = lit "ul"
         ∧ ∀ a, a ∈ Attr n → Key a ≠ lit "id" ∧ Key a ≠ lit "style")
      ∨ (Data n = lit "p"
         ∧ (∀ a, a ∈ Attr n → Key a ≠ lit "class" ∧ Key a ≠ lit "style")
         ∧ strings.Contains (flattenedText n) (lit "Copyright") = false)
      ∨ (Data n = lit "h3"
         ∧ (∀ a, a ∈ Attr n → Key a ≠ lit "class" ∧ Key a ≠ lit "id")
         ∧ strings.Contains (flattenedText n) (lit "District Map") = false)
      ∨ ((Data n = lit "h1" ∨ Data n = lit "h2")
         ∧ ∀ a, a ∈ Attr n → Key a ≠ lit "class" ∧ Key a ≠ lit "id")
      ∨ (Data n = lit "div"
         ∧ ∃ a, a ∈ Attr n ∧ Key a = lit "class"
                ∧ Val a = lit "photogimg") ))) ∧
  let h3 :=
    mkNode ElementNode (lit "h3") []
      [ mkNode TextNode (lit "District ") [] [];
        mkNode ElementNode (lit "b") [] [mkNode TextNode (lit "Map") [] []] ] in
  let p :=
    mkNode ElementNode (lit "p") []
      [ mkNode TextNode (lit "Copy ") [] [];
        mkNode ElementNode (lit "b") [] [mkNode TextNode (lit "right") [] []];
        mkNode TextNode (lit " 2024") [] [] ] in
  (getTextContent h3 = lit "DistrictMap"
   ∧ strings.Contains (flattenedText h3) (lit "District Map") = true
   ∧ isTargetElement h3 = true)
  ∧ (getTextContent p = lit "Copyright2024"
     ∧ flattenedText p = lit "Copy right 2024"
     ∧ strings.Contains (flattenedText p) (lit "Copyright") = false
     ∧ isTargetElement p = false).
Proof.
  split; [|by vm_compute].
  intros n Htext. rewrite isTargetElement_rules.
  destruct (decide (Data n = lit "p")) as [Hp|Hp];
    [by rewrite (Htext (or_introl Hp))|].
  destruct (decide (Data n = lit "h3")) as [Hh|Hh];
    [by rewrite (Htext (or_intror Hh))|].
  tauto.
Qed.

Lemma isTargetElement_flattened_text_witness :
  isTargetElement
    (mkNode ElementNode (lit "p") [Build_Attribute [] (lit "id") (lit "x")]
       [mkNode TextNode (lit " Hello world ") [] []]) = true.
Proof.
  destruct isTargetElement_flattened_text as [Hrules _].
  apply Hrules; [intros _; reflexivity|].
  split; [reflexivity|]. right; left. split; [reflexivity|].
  split; [|reflexivity].
  intros a ->%list_elem_of_singleton. split; discriminate.
Defined.

(** ** Tree extractor *)
Section Extractor.

Variable renderNode : Node → bytes.

(** Induction on a node with the property at hand for all children. *)
Lemma Node_forall_ind (P : Node → Prop) :
  (∀ ty d attrs cs, Forall P cs → P (mkNode ty d attrs cs)) →
  ∀ n, P n.
Proof.
  intros H. fix IH 1. intros [ty d attrs cs]. apply H.
  induction cs as [|c cs IHcs]; constructor; [apply IH|apply IHcs].
Qed.

Lemma emittedAt_unfold (n : Node) :
  emittedAt n
  = if isTargetElement n then [[]] else emittedFrom 0 (Children n).
Proof. by destruct n. Qed.

Lemma extractWalk_unfold (n : Node) (extracted : list bytes) :
  extractWalk renderNode n extracted
  = if isTargetElement n then extracted ++ [renderNode n]
    else fold_left (λ extracted c, extractWalk renderNode c extracted)
           (Children n) extracted.
Proof. by destruct n. Qed.

Lemma extractWalk_children (n : Node) (cs : list Node) :
  Forall (λ c, ∀ acc, extractWalk renderNode c acc
                      = acc ++ map (λ p, from_option renderNode [] (nodeAt c p))
                                 (emittedAt c)) cs →
  ∀ i acc, drop i (Children n) = cs →
  fold_left (λ extracted c, extractWalk renderNode c extracted) cs acc
  = acc ++ map (λ p, from_option renderNode [] (nodeAt n p))
             (emittedFrom i cs).
Proof.
  induction 1 as [|c rest Hc _ IH]; intros i acc Hdrop; simpl.
  - by rewrite app_nil_r.
  - assert (Children n !! i = Some c) as Hi.
    { rewrite <- (Nat.add_0_r i), <- lookup_drop. by rewrite Hdrop. }
    rewrite Hc, (IH (S i)).
    + rewrite map_app, map_map, <- app_assoc. simpl. by rewrite Hi.
    + rewrite (drop_S _ _ _ Hi) in Hdrop. by injection Hdrop.
Qed.

Lemma extractWalk_spec (n : Node) : ∀ extracted,
  extractWalk renderNode n extracted
  = extracted ++ map (λ p, from_option renderNode [] (nodeAt n p))
                   (emittedAt n).
Proof.
  induction n as [ty d attrs cs IH] using Node_forall_ind. intros acc.
  rewrite extractWalk_unfold, emittedAt_unfold.
  destruct (isTargetElement _); [done|].
  by apply extractWalk_children.
Qed.

End Extractor.

Section Positions.

Lemma elem_of_emittedFrom (p : path) (cs : list Node) : ∀ i,
  p ∈ emittedFrom i cs
  ↔ ∃ j c p', p = (i + j) :: p' ∧ cs !! j = Some c ∧ p' ∈ emittedAt c.
Proof.
  induction cs as [|c rest IH]; intros i; simpl.
  - rewrite elem_of_nil. split; [done|]. by intros (j & ? & ? & _ & ? & _).
  - rewrite elem_of_app, list_elem_of_In, in_map_iff, IH. split.
    + intros [(p' & <- & Hp')|(j & c' & p' & -> & Hj & Hp')].
      * exists 0, c, p'. rewrite Nat.add_0_r.
        by rewrite <- list_elem_of_In in Hp'.
      * exists (S j), c', p'. split; [f_equal; lia|done].
    + intros ([|j] & c' & p' & -> & Hj & Hp'); simpl in Hj.
      * injection Hj as <-. left. exists p'. rewrite Nat.add_0_r.
        by rewrite <- list_elem_of_In.
      * right. exists j, c', p'. split; [f_equal; lia|done].
Qed.

Lemma firstAccepted_nil (n : Node) :
  firstAccepted n [] ↔ isTargetElement n = true.
Proof.
  unfold firstAccepted. simpl. split.
  - by intros [(m & [= <-] & Hm) _].
  - intros Hn. split; [by exists n|].
    intros q Hq%prefix_nil_inv. congruence.
Qed.

Lemma firstAccepted_cons (n : Node) (j : nat) (p : path) :
  firstAccepted n (j :: p)
  ↔ isTargetElement n = false
    ∧ ∃ c, Children n !! j = Some c ∧ firstAccepted c p.
Proof.
  unfold firstAccepted. split.
  - intros [(m & Hm & Hacc) Hanc]. split.
    + destruct (Hanc []) as (m' & [= <-] & Hrej);
        [apply prefix_nil|done|done].
    + simpl in Hm. destruct (Children n !! j) as [c|] eqn:Hj; [|done].
      exists c. split; [done|]. split; [by exists m|].
      intros q Hq Hne.
      destruct (Hanc (j :: q)) as (m' & Hm' & Hrej);
        [by apply prefix_cons|congruence|].
      simpl in Hm'. rewrite Hj in Hm'. by exists m'.
  - intros [Hrej (c & Hj & (m & Hm & Hacc) & Hanc)]. split.
    + exists m. simpl. by rewrite Hj.
    + intros [|j' q] Hq Hne; [by exists n|].
      apply prefix_cons_inv_1 in Hq as Hjj. subst j'.
      apply prefix_cons_inv_2 in Hq.
      destruct (Hanc q) as (m' & Hm' & Hrej'); [done|congruence|].
      exists m'. simpl. by rewrite Hj.
Qed.

(** The walk emits at exactly the accepted nodes that have no accepted
    proper ancestor. *)
Lemma elem_of_emittedAt (n : Node) : ∀ p,
  p ∈ emittedAt n ↔ firstAccepted n p.
Proof.
  induction n as [ty d attrs cs IH] using Node_forall_ind. intros p.
  rewrite emittedAt_unfold.
  destruct (isTargetElement (mkNode ty d attrs cs)) eqn:En.
  - rewrite list_elem_of_singleton. split.
    + intros ->. by apply firstAccepted_nil.
    + destruct p as [|j p]; [done|].
      intros [Hrej _]%firstAccepted_cons. congruence.
  - rewrite elem_of_emittedFrom. simpl Children. split.
    + intros (j & c & p' & -> & Hj & Hp'). simpl.
      apply firstAccepted_cons. split; [done|].
      exists c. split; [done|].
      rewrite Forall_lookup in IH. by apply (IH j c Hj).
    + destruct p as [|j p].
      * intros Hacc%firstAccepted_nil. congruence.
      * intros [_ (c & Hj & Hc)]%firstAccepted_cons.
        exists j, c, p. split; [done|]. split; [done|].
        rewrite Forall_lookup in IH. by apply (IH j c Hj).
Qed.

Lemma emittedFrom_sorted (cs : list Node) : ∀ i,
  Forall (λ c, StronglySorted (λ p q, docBefore p q = true) (emittedAt c)) cs →
  StronglySorted (λ p q, docBefore p q = true) (emittedFrom i cs).
Proof.
  induction cs as [|c rest IH]; intros i Hall; simpl; [constructor|].
  apply Forall_cons in Hall as [Hc Hrest].
  apply StronglySorted_app_2; [| |by apply IH].
  - intros x y Hx Hy.
    apply list_elem_of_In, in_map_iff in Hx as (p & <- & _).
    apply elem_of_emittedFrom in Hy as (j & _ & q & -> & _).
    simpl. rewrite bool_decide_eq_true_2 by lia. done.
  - clear -Hc. induction Hc as [|p l Hl IHl Hp]; simpl; constructor; [done|].
    apply Forall_forall. intros x (q & <- & Hq)%list_elem_of_In%in_map_iff.
    simpl. rewrite bool_decide_eq_false_2 by lia.
    rewrite bool_decide_eq_true_2 by done. simpl.
    rewrite Forall_forall in Hp. apply Hp. by apply list_elem_of_In.
Qed.

Lemma emittedAt_sorted (n : Node) :
  StronglySorted (λ p q, docBefore p q = true) (emittedAt n).
Proof.
  induction n as [ty d attrs cs IH] using Node_forall_ind.
  rewrite emittedAt_unfold. destruct (isTargetElement _).
  - repeat constructor.
  - by apply emittedFrom_sorted.
Qed.

Lemma docBefore_irrefl (p : path) : docBefore p p = false.
Proof.
  induction p as [|i p IH]; [done|]. simpl.
  rewrite bool_decide_eq_false_2 by lia. by rewrite IH, andb_false_r.
Qed.

End Positions.

(** C7. The fragments are the renderings of the nodes at the positions
    where the walk emits, in that order.  The walk emits at a position
    exactly when the node there is accepted and every proper ancestor is
    rejected: an accepted node gives one fragment and its children are
    not visited, a rejected node gives none and its children are visited
    in order.  Hence no emitting position is an ancestor of another, and
    the positions come in document order, each once. *)
Theorem extractContent_positions (renderNode : Node → bytes) (doc : Node) :
  extractContent renderNode doc
  = map (λ p, from_option renderNode [] (nodeAt doc p)) (emittedAt doc)
  ∧ (∀ p, p ∈ emittedAt doc ↔ firstAccepted doc p)
  ∧ (∀ p q, p ∈ emittedAt doc → q ∈ emittedAt doc → p `prefix_of` q → p = q)
  ∧ StronglySorted (λ p q, docBefore p q = true) (emittedAt doc)
  ∧ NoDup (emittedAt doc).
Proof.
  split; [apply (extractWalk_spec renderNode doc [])|].
  split; [apply elem_of_emittedAt|].
  split; [|split; [apply emittedAt_sorted|]].
  - intros p q Hp Hq Hpre. destruct (decide (p = q)) as [|Hne]; [done|].
    apply elem_of_emittedAt in Hp as [(n & Hn & Hacc) _].
    apply elem_of_emittedAt in Hq as [_ Hanc].
    destruct (Hanc p Hpre Hne) as (m & Hm & Hrej). congruence.
  - pose proof (emittedAt_sorted doc) as Hs.
    induction Hs as [|p l _ IH Hp]; constructor; [|done].
    intros Hin. rewrite Forall_forall in Hp.
    specialize (Hp p Hin). by rewrite docBefore_irrefl in Hp.
Qed.

Lemma extractContent_positions_witness :
  let doc :=
    mkNode DocumentNode [] []
      [ mkNode ElementNode (lit "h1") [] [mkNode TextNode (lit "Title") [] []];
        mkNode ElementNode (lit "ul") []
          [mkNode ElementNode (lit "p") [] []] ] in
  firstAccepted doc [1] ∧ ([1] : path) = [1].
Proof.
  intros doc.
  destruct (extractContent_positions Data doc) as (_ & Hacc & Hind & _).
  assert (emittedAt doc = [[0]; [1]]) as Hem by reflexivity.
  assert ([1] ∈ emittedAt doc) as Hin by (rewrite Hem; repeat constructor).
  split.
  - by apply Hacc.
  - by apply (Hind [1] [1]).
Defined.

(* ================================================================== *)
(** * Further properties of the code *)

(** ** Brace-span stripping *)
Section BraceFacts.

Lemma scanner_sublist b (s : bytes) : scanner b s `sublist_of` s.
Proof.
  revert b; induction s as [|c s IH]; intros b; simpl; [constructor|].
  destruct b.
  - case_bool_decide; by apply sublist_cons.
  - destruct (_ && _); [by apply sublist_cons|by apply sublist_skip].
Qed.

Lemma scanner_elem_of b (s : bytes) x : x ∈ scanner b s → x ∈ s.
Proof. intros Hx. by apply (sublist_subseteq _ _ (scanner_sublist b s)). Qed.

Lemma scanner_idemp b (s : bytes) :
  scanner false (scanner b s) = scanner b s.
Proof.
  revert b; induction s as [|c s IH]; intros b; simpl; [done|].
  destruct b.
  - case_bool_decide; apply IH.
  - destruct (bool_decide (c = "{") && hasClose s) eqn:E; [apply IH|].
    simpl. rewrite IH.
    assert (bool_decide (c = "{") && hasClose (scanner false s) = false) as ->;
      [|done].
    apply andb_false_iff in E as [E|E]; [by rewrite E|].
    rewrite andb_false_iff. right.
    apply bool_decide_eq_false. apply bool_decide_eq_false in E.
    intros Hin. by apply scanner_elem_of in Hin.
Qed.

Lemma scanner_length b (s : bytes) : length (scanner b s) ≤ length s.
Proof. apply sublist_length, scanner_sublist. Qed.

(** A [{] with a [}] after it costs at least one byte. *)
Lemma scanner_span_shorter (rest : bytes) : "}" ∈ rest → ∀ b (a : bytes),
  length (scanner b (a ++ "{" :: rest)) < length (a ++ "{" :: rest).
Proof.
  intros Hrest b a. revert b; induction a as [|x a IH]; intros b.
  - simpl. pose proof (scanner_length true rest).
    destruct b; simpl.
    + lia.
    + unfold hasClose. rewrite bool_decide_eq_true_2 by done. simpl. lia.
  - cbn [app scanner length]. destruct b.
    + case_bool_decide; [specialize (IH false)|specialize (IH true)]; lia.
    + destruct (_ && _); [specialize (IH true); lia|].
      specialize (IH false). simpl. lia.
Qed.

Lemma scanner_no_span (s : bytes) :
  (¬ ∃ a b c : bytes, s = a ++ "{" :: b ++ "}" :: c) → scanner false s = s.
Proof.
  induction s as [|x s IH]; intros Hno; simpl; [done|].
  destruct (bool_decide (x = "{") && hasClose s) eqn:E.
  - destruct Hno.
    apply andb_true_iff in E as [->%bool_decide_eq_true E%bool_decide_eq_true].
    apply list_elem_of_split in E as (b & c & ->). by exists [], b, c.
  - f_equal. apply IH. intros (a & b & c & ->).
    apply Hno. by exists (x :: a), b, c.
Qed.

End BraceFacts.

(** X1. Running the pass on its own output changes nothing: after one
    run no [{] of the text has a [}] after it. *)
Theorem stripBraces_idempotent (s : bytes) :
  ∃ out, stripBraces s = Some out ∧ stripBraces out = Some out.
Proof.
  exists (scanner false s). rewrite !stripBraces_scanner.
  by rewrite scanner_idemp.
Qed.

(** X2. The pass only deletes bytes: its output is the input with some
    bytes left out, the others in their order; it is never longer. *)
Theorem stripBraces_sublist (s : bytes) :
  ∃ out, stripBraces s = Some out
         ∧ out `sublist_of` s ∧ length out ≤ length s.
Proof.
  exists (scanner false s). rewrite stripBraces_scanner.
  split; [done|]. split; [apply scanner_sublist|apply scanner_length].
Qed.

(** X3. The pass returns its input as it is exactly when the input has
    no [{] with a [}] somewhere after it; a text without braces, or with
    closing braces only, goes through untouched. *)
Theorem stripBraces_fixed_iff (s : bytes) :
  stripBraces s = Some s
  ↔ ¬ ∃ a b c : bytes, s = a ++ "{" :: b ++ "}" :: c.
Proof.
  rewrite stripBraces_scanner. split.
  - intros [= Heq] (a & b & c & ->).
    assert ("}" ∈ b ++ "}" :: c) as Hin
      by (rewrite elem_of_app, elem_of_cons; auto).
    pose proof (scanner_span_shorter _ Hin false a) as Hlt.
    rewrite Heq in Hlt. lia.
  - intros Hno. f_equal. by apply scanner_no_span.
Qed.

(** ** The line pass and the whole post-processing *)
Section PostProcessFacts.

Import strings.

Lemma Split_not_nil x (s : bytes) : Split s [x] ≠ [].
Proof.
  destruct s as [|c s]; [done|]. rewrite Split_cons.
  case_bool_decide; [done|]. by destruct (Split s [x]).
Qed.

Lemma Join_cons (e : bytes) (rest : list bytes) (sep : bytes) :
  Join (e :: rest) sep
  = e ++ match rest with [] => [] | _ :: _ => sep ++ Join rest sep end.
Proof. destruct rest; simpl; [by rewrite app_nil_r|done]. Qed.

(** Joining undoes splitting. *)
Lemma Join_Split x (s : bytes) : Join (Split s [x]) [x] = s.
Proof.
  induction s as [|c s IH]; [done|]. rewrite Split_cons.
  pose proof (Split_not_nil x s) as Hne.
  destruct (Split s [x]) as [|w ws] eqn:E; [done|].
  case_bool_decide as Hc.
  - subst c. change (Join ([] :: w :: ws) [x]) with (x :: Join (w :: ws) [x]).
    by rewrite IH.
  - rewrite <- IH. by destruct ws.
Qed.

Lemma filter_Forall_id (P : bytes → Prop) `{!∀ l, Decision (P l)}
    (ls : list bytes) :
  Forall P ls → filter P ls = ls.
Proof.
  induction 1 as [|l ls Hl _ IH]; [done|].
  by rewrite filter_cons, decide_True, IH.
Qed.

Lemma Join_infix (ls : list bytes) (sep l : bytes) :
  l ∈ ls → ∃ a b, Join ls sep = a ++ l ++ b.
Proof.
  induction ls as [|e rest IH]; intros Hin; [by apply elem_of_nil in Hin|].
  rewrite Join_cons. apply elem_of_cons in Hin as [->|Hin].
  - by exists [], (match rest with [] => [] | _ :: _ => sep ++ Join rest sep end).
  - destruct (IH Hin) as (a & b & Heq). destruct rest as [|e2 rest].
    + by apply elem_of_nil in Hin.
    + rewrite Heq. exists (e ++ sep ++ a), b. by rewrite <- !app_assoc.
Qed.

Lemma Contains_false_infix (a l b sub : bytes) :
  Contains (a ++ l ++ b) sub = false → Contains l sub = false.
Proof.
  intros H. apply not_true_is_false. intros (x & y & ->)%Contains_iff.
  apply not_true_iff_false in H. apply H. apply Contains_iff.
  exists (a ++ x), (y ++ b). by rewrite <- !app_assoc.
Qed.

(** Without an instance of [old] nothing is replaced. *)
Lemma ReplaceAll_no_match (s old new : bytes) :
  Contains s old = false → ReplaceAll s old new = s.
Proof.
  induction s as [|c s IH]; intros Hno; [done|].
  rewrite ReplaceAll_step by (by apply Contains_false_prefix).
  f_equal. apply IH. by apply (Contains_false_app [c]).
Qed.

(** Replacing by a part of what is replaced only deletes bytes. *)
Lemma ReplaceAll_sublist_len x (old new : bytes) (n : nat) : ∀ s : bytes,
  new `sublist_of` x :: old → length s < n →
  ReplaceAll s (x :: old) new `sublist_of` s.
Proof.
  intros s Hnew. revert s. induction n as [|n IH]; intros s Hlen; [lia|].
  destruct (HasPrefix s (x :: old)) eqn:E.
  - apply HasPrefix_iff in E as [t ->]. rewrite ReplaceAll_match.
    apply sublist_app; [done|]. apply IH.
    rewrite length_app in Hlen. simpl in Hlen. lia.
  - destruct s as [|c s]; [done|]. rewrite ReplaceAll_step by done.
    apply sublist_skip, IH. simpl in Hlen. lia.
Qed.

Lemma ReplaceAll_sublist x (old new s : bytes) :
  new `sublist_of` x :: old → ReplaceAll s (x :: old) new `sublist_of` s.
Proof.
  intros H. apply (ReplaceAll_sublist_len x old new (S (length s))); [done|lia].
Qed.

Lemma rewriteUp_sublist (l : bytes) : rewriteUp l `sublist_of` l.
Proof.
  apply (ReplaceAll_sublist "(" (lit "../") (lit "(")).
  apply sublist_skip, sublist_nil_l.
Qed.

Lemma rewriteIndex_sublist (l : bytes) : rewriteIndex l `sublist_of` l.
Proof.
  apply (ReplaceAll_sublist "/" (lit "index.html)") (lit ")")).
  apply (sublist_inserts_l (lit "/index.html") (lit ")") (lit ")")).
  done.
Qed.

Lemma removeMarkers_sublist (s : bytes) : removeMarkers s `sublist_of` s.
Proof.
  apply (ReplaceAll_sublist "*" (lit "*::**") []). apply sublist_nil_l.
Qed.

(** Dropping pieces and shrinking the others shrinks the joined text. *)
Lemma Join_filter_map_sublist (P : bytes → Prop) `{!∀ l, Decision (P l)}
    (f : bytes → bytes) (sep : bytes) (ls : list bytes) :
  (∀ l, f l `sublist_of` l) →
  Join (map f (filter P ls)) sep `sublist_of` Join ls sep.
Proof.
  intros Hf. induction ls as [|e rest IH]; [done|].
  rewrite filter_cons, (Join_cons e). destruct (decide (P e)).
  - cbn [map]. rewrite Join_cons. apply sublist_app; [apply Hf|].
    destruct (map f (filter P rest)) as [|r rs] eqn:E; [apply sublist_nil_l|].
    destruct rest as [|e2 rest]; [done|].
    by apply sublist_app.
  - destruct rest as [|e2 rest]; [apply sublist_nil_l|].
    by apply sublist_inserts_l, sublist_inserts_l.
Qed.

Lemma filterLines_Join (mdText : bytes) :
  filterLines mdText
  = Join (map (λ l, rewriteIndex (rewriteUp l))
            (filter (λ l, HasPrefix (TrimSpace l) (lit ":::") = false)
               (Split mdText nl))) nl.
Proof. unfold filterLines. by rewrite filterLoop_spec. Qed.

Lemma filterLines_sublist_of (mdText : bytes) :
  filterLines mdText `sublist_of` mdText.
Proof.
  rewrite filterLines_Join.
  rewrite <- (Join_Split x0a mdText) at 2. apply Join_filter_map_sublist.
  intros l. etrans; [apply rewriteIndex_sublist|apply rewriteUp_sublist].
Qed.

Lemma filterLines_id (mdText : bytes) :
  Contains mdText (lit "(../") = false →
  Contains mdText (lit "/index.html)") = false →
  Forall (λ l, HasPrefix (TrimSpace l) (lit ":::") = false) (Split mdText nl) →
  filterLines mdText = mdText.
Proof.
  intros Hup Hidx Hdir. rewrite filterLines_Join.
  rewrite filter_Forall_id by done.
  transitivity (Join (Split mdText nl) nl); [|apply (Join_Split x0a)].
  f_equal.
  rewrite <- (map_id (Split mdText nl)) at 2. apply map_ext_in.
  intros l Hl%list_elem_of_In.
  destruct (Join_infix _ nl _ Hl) as (a & b & Heq).
  unfold nl in Heq. rewrite Join_Split in Heq. subst mdText.
  unfold rewriteUp, rewriteIndex.
  rewrite (ReplaceAll_no_match l) by (by eapply Contains_false_infix).
  apply ReplaceAll_no_match. by eapply Contains_false_infix.
Qed.

End PostProcessFacts.

Lemma no_open_no_span (s : bytes) :
  "{" ∉ s → ¬ ∃ a b c : bytes, s = a ++ "{" :: b ++ "}" :: c.
Proof.
  intros Hno (a & b & c & ->). apply Hno.
  rewrite elem_of_app, elem_of_cons. auto.
Qed.

(** X4. The line pass only deletes bytes: dropping directive lines and
    shortening links leaves the remaining bytes of the text in place. *)
Theorem filterLines_only_deletes (mdText : bytes) :
  filterLines mdText `sublist_of` mdText
  ∧ length (filterLines mdText) ≤ length mdText.
Proof.
  split; [apply filterLines_sublist_of|].
  apply sublist_length, filterLines_sublist_of.
Qed.

(** X5. The body of the written document is the converter's output with
    bytes deleted: the three passes together never insert, change or
    reorder a byte. *)
Theorem buildDocument_body_sublist
    (fileNameWithoutExt date category tag mdContent : bytes) :
  ∃ body,
    buildDocument fileNameWithoutExt date category tag mdContent
    = Some (writeMetadata [] (formatDirName fileNameWithoutExt)
              date category tag ++ body)
    ∧ body `sublist_of` mdContent.
Proof.
  exists (scanner false (filterLines (removeMarkers mdContent))).
  unfold buildDocument. rewrite stripBracesInto_scanner. split; [done|].
  etrans; [apply scanner_sublist|].
  etrans; [apply filterLines_sublist_of|apply removeMarkers_sublist].
Qed.

(** X6. A text with no "(../", no "/index.html)" and no line that begins
    with ":::" once trimmed comes out of the line pass as it went in,
    whatever its line structure (empty lines, a final newline or none). *)
Theorem filterLines_clean (mdText : bytes) :
  strings.Contains mdText (lit "(../") = false →
  strings.Contains mdText (lit "/index.html)") = false →
  Forall (λ l, strings.HasPrefix (strings.TrimSpace l) (lit ":::") = false)
    (strings.Split mdText nl) →
  filterLines mdText = mdText.
Proof. apply filterLines_id. Qed.

Lemma filterLines_clean_witness :
  filterLines (lit "# Title" ++ nl ++ nl ++ lit "see (page) :::" ++ nl)
  = lit "# Title" ++ nl ++ nl ++ lit "see (page) :::" ++ nl.
Proof.
  apply filterLines_clean; [reflexivity..|].
  assert (strings.Split (lit "# Title" ++ nl ++ nl ++ lit "see (page) :::" ++ nl) nl
          = [lit "# Title"; []; lit "see (page) :::"; []]) as -> by reflexivity.
  repeat constructor.
Defined.

(** X7. On converter output that holds nothing the passes look for (no
    "**::**", no "(../", no "/index.html)", no directive line, no [{]
    with a [}] after it) the document is the metadata block followed by
    that output, byte for byte. *)
Theorem buildDocument_clean
    (fileNameWithoutExt date category tag mdContent : bytes) :
  strings.Contains mdContent (lit "**::**") = false →
  strings.Contains mdContent (lit "(../") = false →
  strings.Contains mdContent (lit "/index.html)") = false →
  Forall (λ l, strings.HasPrefix (strings.TrimSpace l) (lit ":::") = false)
    (strings.Split mdContent nl) →
  (¬ ∃ a b c : bytes, mdContent = a ++ "{" :: b ++ "}" :: c) →
  buildDocument fileNameWithoutExt date category tag mdContent
  = Some (writeMetadata [] (formatDirName fileNameWithoutExt)
            date category tag ++ mdContent).
Proof.
  intros Hmark Hup Hidx Hdir Hspan. unfold buildDocument.
  rewrite stripBracesInto_scanner. unfold removeMarkers.
  rewrite ReplaceAll_no_match by done.
  rewrite filterLines_id by done.
  by rewrite scanner_no_span.
Qed.

Lemma buildDocument_clean_witness :
  buildDocument (lit "a") (lit "2024-01-02") (lit "c") (lit "t")
    (lit "# Title" ++ nl ++ lit "text } more")
  = Some (writeMetadata [] (formatDirName (lit "a")) (lit "2024-01-02")
            (lit "c") (lit "t") ++ lit "# Title" ++ nl ++ lit "text } more").
Proof.
  apply buildDocument_clean; [reflexivity..| |].
  - assert (strings.Split (lit "# Title" ++ nl ++ lit "text } more") nl
            = [lit "# Title"; lit "text } more"]) as -> by reflexivity.
    repeat constructor.
  - apply no_open_no_span. by apply not_elem_of_bytes.
Defined.

(** ** Title derivation *)
Section TitleFacts.

Import strings.

Lemma Split_pieces_no_sep x (s : bytes) : Forall (λ w, x ∉ w) (Split s [x]).
Proof.
  induction s as [|c s IH]; [repeat constructor; apply not_elem_of_nil|].
  rewrite Split_cons. case_bool_decide as Hc.
  - constructor; [apply not_elem_of_nil|done].
  - destruct (Split s [x]) as [|w ws].
    + repeat constructor. rewrite not_elem_of_cons. split; [congruence|].
      apply not_elem_of_nil.
    + apply Forall_cons in IH as [Hw Hws]. constructor; [|done].
      rewrite not_elem_of_cons. split; [congruence|done].
Qed.

Lemma Split_pieces_Forall (P : byte → Prop) x (s : bytes) :
  Forall P s → Forall (Forall P) (Split s [x]).
Proof.
  induction 1 as [|c s Hc _ IH]; [by repeat constructor|].
  rewrite Split_cons. case_bool_decide; [by constructor|].
  destruct (Split s [x]) as [|w ws]; [by repeat constructor|].
  apply Forall_cons in IH as [Hw Hws]. by repeat constructor.
Qed.

Lemma Join_not_elem_of x (ls : list bytes) (sep : bytes) :
  x ∉ sep → Forall (λ w, x ∉ w) ls → x ∉ Join ls sep.
Proof.
  intros Hsep. induction 1 as [|w ws Hw _ IH]; [apply not_elem_of_nil|].
  rewrite Join_cons. destruct ws; [by rewrite app_nil_r|].
  rewrite !not_elem_of_app. auto.
Qed.

(** No byte but the hyphen is turned into a hyphen. *)
Lemma ToUpper_no_hyphen (c : byte) : c ≠ "-" → "-" ∉ ToUpper c.
Proof.
  intros Hc. apply not_elem_of_bytes. by destruct c.
Qed.

Lemma capitalizeWord_no_hyphen (w : bytes) :
  "-" ∉ w → "-" ∉ capitalizeWord w.
Proof.
  destruct w as [|c w]; [done|]. intros [Hc Hw]%not_elem_of_cons. simpl.
  rewrite not_elem_of_app. split; [apply ToUpper_no_hyphen; congruence|done].
Qed.

Lemma ToUpper_length_ascii (c : byte) :
  (Byte.to_N c < 128)%N → length (ToUpper c) = 1.
Proof. intros Hc. by rewrite ToUpper_ascii. Qed.

Lemma Join_length_map (f : bytes → bytes) (sep1 sep2 : bytes)
    (ls : list bytes) :
  length sep1 = length sep2 →
  Forall (λ w, length (f w) = length w) ls →
  length (Join (map f ls) sep1) = length (Join ls sep2).
Proof.
  intros Hsep. induction 1 as [|w ws Hw _ IH]; [done|].
  cbn [map]. rewrite !Join_cons. destruct ws as [|w2 ws].
  - simpl. by rewrite !app_nil_r.
  - cbn [map] in *. rewrite !length_app. lia.
Qed.

End TitleFacts.

(** X8. The title never holds a hyphen, whatever the base name: every
    hyphen of the name is a separator and becomes a space, and
    capitalizing creates none. *)
Theorem formatDirName_no_hyphen (name : bytes) : "-" ∉ formatDirName name.
Proof.
  rewrite formatDirName_map. apply Join_not_elem_of.
  - by apply not_elem_of_bytes.
  - apply Forall_forall. intros w (seg & <- & Hseg)%list_elem_of_In%in_map_iff.
    apply capitalizeWord_no_hyphen.
    pose proof (Split_pieces_no_sep "-" name) as Hall.
    rewrite Forall_forall in Hall. by apply Hall, list_elem_of_In.
Qed.

(** X9. On a name whose bytes are all ASCII the title has exactly the
    length of the name: hyphens become spaces one for one and a first
    letter is replaced by its capital. *)
Theorem formatDirName_length_ascii (name : bytes) :
  Forall (λ c, (Byte.to_N c < 128)%N) name →
  length (formatDirName name) = length name.
Proof.
  intros Hascii. rewrite formatDirName_map.
  rewrite <- (Join_Split "-" name) at 2.
  apply Join_length_map; [done|].
  apply (Split_pieces_Forall _ "-") in Hascii.
  eapply Forall_impl; [exact Hascii|]. intros [|c w] Hw; [done|].
  apply Forall_cons in Hw as [Hc _]. simpl.
  rewrite length_app, ToUpper_length_ascii by done. done.
Qed.

Lemma formatDirName_length_ascii_witness :
  length (formatDirName (lit "tokyo--city-guide-")) = 18.
Proof.
  rewrite formatDirName_length_ascii; [reflexivity|].
  repeat constructor.
Defined.

(** X10. On a name written as segments joined by hyphens (no hyphen
    inside a segment) the title is the segments joined by single spaces,
    each with its first byte passed through [ToUpper]; an empty segment
    (two hyphens in a row, a hyphen at either end) stays, so the spaces
    around it stand side by side.  A first byte that is ASCII is replaced
    by its capital if it is a lower-case letter and kept otherwise. *)
Theorem formatDirName_by_segments :
  (∀ segs : list bytes,
     Forall (λ seg, "-" ∉ seg) segs →
     formatDirName (strings.Join segs (lit "-"))
     = strings.Join (map capitalizeWord segs) (lit " ")) ∧
  (∀ (c : byte) (rest : bytes),
     (Byte.to_N c < 128)%N →
     capitalizeWord (c :: rest)
     = (if (97 <=? Byte.to_N c)%N && (Byte.to_N c <=? 122)%N
        then default c (Byte.of_N (Byte.to_N c - 32)) else c) :: rest).
Proof.
  split.
  - intros segs Hsegs. rewrite formatDirName_map.
    destruct segs as [|seg segs]; [reflexivity|].
    change (lit "-") with ["-"]. by rewrite Split_Join.
  - intros c rest Hc. simpl. by rewrite ToUpper_ascii.
Qed.

Lemma formatDirName_by_segments_witness :
  formatDirName (strings.Join [lit "new"; []; lit "york"] (lit "-"))
  = lit "New  York"
  ∧ capitalizeWord ("n" :: lit "ew") = lit "New".
Proof.
  destruct formatDirName_by_segments as [Hsegs Hcap]. split.
  - rewrite Hsegs; [reflexivity|].
    repeat constructor; by apply not_elem_of_bytes.
  - rewrite Hcap; [reflexivity|]. vm_compute. reflexivity.
Defined.

(** ** White-space trimming *)
Section TrimFacts.

Import strings.

(** One step of either trimming loop: pass the rune at the head, or stop. *)
Lemma trimLeft_step (s : bytes) :
  trimLeft s
  = match spaceWidth s with 0 => s | S _ => trimLeft (drop (spaceWidth s) s) end.
Proof.
  destruct s as [|c t]; [done|]. cbn [trimLeft spaceWidth].
  destruct (asciiSpace c); [done|]. destruct t as [|d t2]; [done|].
  destruct (space2 c d); [done|]. destruct t2 as [|e t3]; [done|].
  by destruct (space3 c d e).
Qed.

Lemma trimRightRev_step (r : bytes) :
  trimRightRev r
  = match spaceWidthRev r with
    | 0 => r
    | S _ => trimRightRev (drop (spaceWidthRev r) r)
    end.
Proof.
  destruct r as [|c t]; [done|]. cbn [trimRightRev spaceWidthRev].
  destruct (asciiSpace c); [done|]. destruct t as [|d t2]; [done|].
  destruct (space2 d c); [done|]. destruct t2 as [|e t3]; [done|].
  by destruct (space3 e d c).
Qed.

Lemma spaceWidth_le (s : bytes) : spaceWidth s ≤ length s.
Proof.
  destruct s as [|c [|d [|e t]]]; simpl; repeat case_match; lia.
Qed.

Lemma spaceWidthRev_le (r : bytes) : spaceWidthRev r ≤ length r.
Proof.
  destruct r as [|c [|d [|e t]]]; simpl; repeat case_match; lia.
Qed.

(** After trimming no white-space rune is left at that end. *)
Lemma trimLeft_spaceWidth (n : nat) : ∀ s : bytes,
  length s < n → spaceWidth (trimLeft s) = 0.
Proof.
  induction n as [|n IH]; intros s Hlen; [lia|].
  rewrite trimLeft_step. destruct (spaceWidth s) as [|w] eqn:E; [done|].
  apply IH. pose proof (spaceWidth_le s). rewrite length_drop. lia.
Qed.

Lemma trimRightRev_spaceWidthRev (n : nat) : ∀ r : bytes,
  length r < n → spaceWidthRev (trimRightRev r) = 0.
Proof.
  induction n as [|n IH]; intros r Hlen; [lia|].
  rewrite trimRightRev_step. destruct (spaceWidthRev r) as [|w] eqn:E; [done|].
  apply IH. pose proof (spaceWidthRev_le r). rewrite length_drop. lia.
Qed.

(** What trimming the right end returns is the end of what it got. *)
Lemma trimRightRev_suffix (n : nat) : ∀ r : bytes,
  length r < n → trimRightRev r `suffix_of` r.
Proof.
  induction n as [|n IH]; intros r Hlen; [lia|].
  rewrite trimRightRev_step. destruct (spaceWidthRev r) as [|w] eqn:E; [done|].
  etrans; [|apply suffix_drop]. apply IH.
  pose proof (spaceWidthRev_le r). rewrite length_drop. lia.
Qed.

Lemma trimLeft_fixed (s : bytes) : spaceWidth s = 0 → trimLeft s = s.
Proof. intros H. by rewrite trimLeft_step, H. Qed.

Lemma trimRightRev_fixed (r : bytes) :
  spaceWidthRev r = 0 → trimRightRev r = r.
Proof. intros H. by rewrite trimRightRev_step, H. Qed.

(** A beginning of a string that starts with no white-space rune starts
    with none. *)
Lemma spaceWidth_prefix (r s : bytes) :
  r `prefix_of` s → spaceWidth s = 0 → spaceWidth r = 0.
Proof.
  intros [k ->].
  destruct r as [|c [|d [|e t]]]; simpl; try done;
    repeat case_match; try done.
Qed.

Lemma TrimSpace_idemp (s : bytes) : TrimSpace (TrimSpace s) = TrimSpace s.
Proof.
  unfold TrimSpace, trimRight.
  set (s' := trimLeft s). set (y := trimRightRev (rev s')).
  assert (spaceWidth s' = 0) as Hs'
    by (apply (trimLeft_spaceWidth (S (length s))); lia).
  assert (spaceWidthRev y = 0) as Hy
    by (apply (trimRightRev_spaceWidthRev (S (length (rev s')))); lia).
  assert (rev y `prefix_of` s') as Hpre.
  { destruct (trimRightRev_suffix (S (length (rev s'))) (rev s')) as [k Hk];
      [lia|].
    exists (rev k). fold y in Hk.
    rewrite <- (rev_involutive s'), Hk. by rewrite rev_app_distr. }
  rewrite (trimLeft_fixed (rev y)) by (by eapply spaceWidth_prefix).
  by rewrite rev_involutive, (trimRightRev_fixed y).
Qed.

Lemma trimRight_prefix (s : bytes) : trimRight s `prefix_of` s.
Proof.
  unfold trimRight.
  destruct (trimRightRev_suffix (S (length (rev s))) (rev s)) as [k Hk]; [lia|].
  exists (rev k). rewrite <- rev_app_distr, <- Hk. by rewrite rev_involutive.
Qed.

Lemma TrimSpace_spaceWidth (s : bytes) : spaceWidth (TrimSpace s) = 0.
Proof.
  unfold TrimSpace. eapply spaceWidth_prefix; [apply trimRight_prefix|].
  apply (trimLeft_spaceWidth (S (length s))). lia.
Qed.

Lemma TrimSpace_spaceWidthRev (s : bytes) :
  spaceWidthRev (rev (TrimSpace s)) = 0.
Proof.
  unfold TrimSpace, trimRight. rewrite rev_involutive.
  apply (trimRightRev_spaceWidthRev (S (length (rev (trimLeft s))))). lia.
Qed.

End TrimFacts.

(** X11. The flattened text the classifier works with is already
    trimmed: trimming it again changes nothing, so it never begins or ends
    with a white-space rune. *)
Theorem getTextContent_trimmed (n : Node) :
  strings.TrimSpace (getTextContent n) = getTextContent n
  ∧ strings.spaceWidth (getTextContent n) = 0
  ∧ strings.spaceWidthRev (rev (getTextContent n)) = 0.
Proof.
  destruct n as [ty d attrs cs]. rewrite getTextContent_children.
  set (text := (if bool_decide (ty = TextNode) then d else [])
               ++ concat (map getTextContent cs)).
  split; [apply TrimSpace_idemp|].
  split; [apply TrimSpace_spaceWidth|apply TrimSpace_spaceWidthRev].
Qed.

(** X12. A node that is not a text node and has one child has the text
    of that child; so for an element whose only child is a text node the
    flattened text is the trimmed data of that text node, which is also
    what the text of the subtree trimmed once at its two ends gives. *)
Theorem getTextContent_single_child ty (d : bytes) attrs :
  ty ≠ TextNode →
  (∀ c : Node, getTextContent (mkNode ty d attrs [c]) = getTextContent c) ∧
  (∀ (t : bytes) attrs',
     getTextContent (mkNode ty d attrs [mkNode TextNode t attrs' []])
     = strings.TrimSpace t
     ∧ flattenedText (mkNode ty d attrs [mkNode TextNode t attrs' []])
       = strings.TrimSpace t).
Proof.
  intros Hty.
  assert (∀ c : Node, getTextContent (mkNode ty d attrs [c]) = getTextContent c)
    as Hone.
  { intros c. rewrite getTextContent_children.
    rewrite bool_decide_eq_false_2 by done. simpl. rewrite app_nil_r.
    destruct c as [ty' d' attrs' cs']. rewrite getTextContent_children.
    apply TrimSpace_idemp. }
  split; [exact Hone|]. intros t attrs'. rewrite Hone. split.
  - rewrite getTextContent_children. simpl. by rewrite app_nil_r.
  - unfold flattenedText. simpl.
    rewrite bool_decide_eq_false_2 by done. simpl. by rewrite !app_nil_r.
Qed.

Lemma getTextContent_single_child_witness :
  getTextContent
    (mkNode ElementNode (lit "p") []
       [mkNode TextNode (lit "  Copyright 2024 ") [] []])
  = lit "Copyright 2024".
Proof.
  destruct (getTextContent_single_child ElementNode (lit "p") [])
    as [_ Htext]; [discriminate|].
  destruct (Htext (lit "  Copyright 2024 ") []) as [-> _]. reflexivity.
Defined.

(** ** Element classifier *)
Section ClassifierFacts.

Lemma noAttrIn_key_set (attrs attrs' : list Attribute) (ex : list bytes) :
  (∀ k, k ∈ map Key attrs ↔ k ∈ map Key attrs') →
  noAttrIn attrs ex = noAttrIn attrs' ex.
Proof.
  assert (∀ l l' : list Attribute,
            (∀ k, k ∈ map Key l → k ∈ map Key l') →
            (∀ a, a ∈ l' → Key a ∉ ex) → ∀ a, a ∈ l → Key a ∉ ex) as Hsub.
  { intros l l' Hk Hl' a Ha.
    assert (Key a ∈ map Key l') as Hin
      by (apply Hk, list_elem_of_In, in_map, list_elem_of_In, Ha).
    apply list_elem_of_In, in_map_iff in Hin as (a' & <- & Ha').
    by apply Hl', list_elem_of_In. }
  intros Hkeys. apply eq_true_iff_eq. rewrite !noAttrIn_iff.
  split; apply Hsub; intros k; apply Hkeys.
Qed.

Lemma noAttrIn_perm (attrs attrs' : list Attribute) (ex : list bytes) :
  attrs ≡ₚ attrs' → noAttrIn attrs ex = noAttrIn attrs' ex.
Proof.
  intros Hp. apply eq_true_iff_eq. rewrite !noAttrIn_iff.
  by setoid_rewrite Hp.
Qed.

Lemma hasPhotogimg_perm (attrs attrs' : list Attribute) :
  attrs ≡ₚ attrs' → hasPhotogimg attrs = hasPhotogimg attrs'.
Proof.
  intros Hp. apply eq_true_iff_eq. rewrite !hasPhotogimg_iff.
  by setoid_rewrite Hp.
Qed.

Lemma getTextContent_attrs ty (d : bytes) attrs attrs' (cs : list Node) :
  getTextContent (mkNode ty d attrs cs) = getTextContent (mkNode ty d attrs' cs).
Proof. by rewrite !getTextContent_children. Qed.

End ClassifierFacts.

(** X13. For every tag but [div] the attributes of a node enter the
    verdict through the set of their keys only: two attribute lists that
    carry the same keys, in whatever order, however often and with
    whatever values and namespaces, give the same verdict on otherwise
    equal nodes. *)
Theorem isTargetElement_key_set ty (d : bytes)
    (attrs attrs' : list Attribute) (cs : list Node) :
  d ≠ lit "div" →
  (∀ k, k ∈ map Key attrs ↔ k ∈ map Key attrs') →
  isTargetElement (mkNode ty d attrs cs)
  = isTargetElement (mkNode ty d attrs' cs).
Proof.
  intros Hdiv Hkeys. unfold isTargetElement, hasNoAttributes.
  cbn [Type_ Data Attr].
  rewrite !(noAttrIn_key_set _ _ _ Hkeys).
  rewrite (getTextContent_attrs ty d attrs attrs').
  by rewrite (bool_decide_eq_false_2 (d = lit "div")).
Qed.

Lemma isTargetElement_key_set_witness :
  isTargetElement
    (mkNode ElementNode (lit "ul")
       [Build_Attribute [] (lit "class") (lit "a");
        Build_Attribute [] (lit "lang") (lit "en");
        Build_Attribute [] (lit "class") (lit "b")]
       [mkNode ElementNode (lit "li") [] []])
  = isTargetElement
      (mkNode ElementNode (lit "ul")
         [Build_Attribute (lit "x") (lit "lang") [];
          Build_Attribute [] (lit "class") []]
         [mkNode ElementNode (lit "li") [] []]).
Proof.
  apply isTargetElement_key_set; [discriminate|].
  intros k. cbn [map Key]. rewrite !elem_of_cons, elem_of_nil. tauto.
Defined.

(** X14. The order of a node's attributes plays no part in the verdict,
    for any tag. *)
Theorem isTargetElement_attr_order ty (d : bytes)
    (attrs attrs' : list Attribute) (cs : list Node) :
  attrs ≡ₚ attrs' →
  isTargetElement (mkNode ty d attrs cs)
  = isTargetElement (mkNode ty d attrs' cs).
Proof.
  intros Hp. unfold isTargetElement, hasNoAttributes. cbn [Type_ Data Attr].
  rewrite !(noAttrIn_perm _ _ _ Hp), (hasPhotogimg_perm _ _ Hp).
  by rewrite (getTextContent_attrs ty d attrs attrs').
Qed.

Lemma isTargetElement_attr_order_witness :
  isTargetElement
    (mkNode ElementNode (lit "div")
       [Build_Attribute [] (lit "id") (lit "a");
        Build_Attribute [] (lit "class") (lit "photogimg")] [])
  = isTargetElement
      (mkNode ElementNode (lit "div")
         [Build_Attribute [] (lit "class") (lit "photogimg");
          Build_Attribute [] (lit "id") (lit "a")] []).
Proof. apply isTargetElement_attr_order. apply Permutation_swap. Defined.

(** X15. [hasNoAttributes] holds exactly when no attribute of the node
    has its key in the exclusion list, whatever the values; in particular
    it holds for a node without attributes and for an empty list. *)
Theorem hasNoAttributes_iff (n : Node) (excludeAttrs : list bytes) :
  (hasNoAttributes n excludeAttrs = true
   ↔ ∀ a, a ∈ Attr n → Key a ∉ excludeAttrs)
  ∧ (Attr n = [] → hasNoAttributes n excludeAttrs = true)
  ∧ hasNoAttributes n [] = true.
Proof.
  unfold hasNoAttributes. split; [apply noAttrIn_iff|]. split.
  - by intros ->.
  - apply noAttrIn_iff. intros a _. apply not_elem_of_nil.
Qed.

Lemma hasNoAttributes_iff_witness :
  hasNoAttributes (mkNode ElementNode (lit "p") [] []) [lit "class"] = true.
Proof.
  destruct (hasNoAttributes_iff (mkNode ElementNode (lit "p") [] [])
              [lit "class"]) as (_ & Hnil & _).
  by apply Hnil.
Defined.

(** ** Tree extractor *)
Section ExtractorFacts.

Variable renderNode : Node → bytes.

(** The walk appends to what was extracted before and leaves it alone. *)
Lemma extractWalk_acc (n : Node) (extracted : list bytes) :
  extractWalk renderNode n extracted
  = extracted ++ extractContent renderNode n.
Proof.
  unfold extractContent. by rewrite !(extractWalk_spec renderNode n).
Qed.

Lemma extractWalk_fold (cs : list Node) : ∀ extracted,
  fold_left (λ extracted c, extractWalk renderNode c extracted) cs extracted
  = extracted ++ concat (map (extractContent renderNode) cs).
Proof.
  induction cs as [|c cs IH]; intros acc; simpl.
  - by rewrite app_nil_r.
  - by rewrite IH, extractWalk_acc, <- app_assoc.
Qed.

(** An accepted node is covered by an emitting position on the way to it. *)
Lemma emittedAt_covers (p : path) : ∀ doc n,
  nodeAt doc p = Some n → isTargetElement n = true →
  ∃ q, q ∈ emittedAt doc ∧ q `prefix_of` p.
Proof.
  induction p as [|i p IH]; intros doc n Hn Hacc.
  - injection Hn as ->. exists []. split; [|done].
    rewrite emittedAt_unfold, Hacc. by left.
  - destruct (isTargetElement doc) eqn:Hdoc.
    + exists []. split; [|apply prefix_nil].
      rewrite emittedAt_unfold, Hdoc. by left.
    + simpl in Hn. destruct (Children doc !! i) as [c|] eqn:Hi; [|done].
      destruct (IH c n Hn Hacc) as (q & Hq & Hpre).
      exists (i :: q). split; [|by apply prefix_cons].
      rewrite emittedAt_unfold, Hdoc. apply elem_of_emittedFrom.
      by exists i, c, q.
Qed.

Lemma isTargetElement_whitelist (n : Node) :
  isTargetElement n = true →
  Type_ n = ElementNode
  ∧ Data n ∈ [lit "ul"; lit "p"; lit "h3"; lit "h1"; lit "h2"; lit "div"].
Proof.
  unfold isTargetElement.
  destruct (bool_decide (Type_ n = ElementNode)) eqn:Ety; [|done].
  apply bool_decide_eq_true in Ety. simpl.
  repeat case_bool_decide; simpl; intros Hacc; try done;
    (split; [done|]);
    match goal with H : Data n = _ |- _ => rewrite H end;
    rewrite !elem_of_cons; auto 10.
Qed.

End ExtractorFacts.

(** X16. Extraction follows the tree: an accepted node gives its one
    fragment, a rejected node gives the fragments of its children, child
    after child. *)
Theorem extractContent_node (renderNode : Node → bytes) (n : Node) :
  extractContent renderNode n
  = if isTargetElement n then [renderNode n]
    else concat (map (extractContent renderNode) (Children n)).
Proof.
  unfold extractContent at 1. rewrite extractWalk_unfold.
  destruct (isTargetElement n); [done|].
  by rewrite extractWalk_fold.
Qed.

(** X17. Extraction yields no fragment exactly when no node of the
    document is accepted; it is then the empty sequence, not a failure. *)
Theorem extractContent_nil_iff (renderNode : Node → bytes) (doc : Node) :
  extractContent renderNode doc = []
  ↔ ∀ p n, nodeAt doc p = Some n → isTargetElement n = false.
Proof.
  unfold extractContent. rewrite extractWalk_spec. simpl. split.
  - intros Hnil p n Hn. apply not_true_is_false. intros Hacc.
    destruct (emittedAt_covers p doc n Hn Hacc) as (q & Hq & _).
    apply map_eq_nil in Hnil. rewrite Hnil in Hq.
    by apply elem_of_nil in Hq.
  - intros Hnone. destruct (emittedAt doc) as [|q qs] eqn:E; [done|].
    assert (q ∈ emittedAt doc) as Hq by (rewrite E; by left).
    apply elem_of_emittedAt in Hq as [(n & Hn & Hacc) _].
    rewrite (Hnone q n Hn) in Hacc. done.
Qed.

(** X18. Nothing accepted is lost: every accepted node of the document
    is emitted itself or lies inside an emitted node. *)
Theorem extractContent_covers (doc : Node) (p : path) (n : Node) :
  nodeAt doc p = Some n → isTargetElement n = true →
  ∃ q, q ∈ emittedAt doc ∧ q `prefix_of` p.
Proof. apply emittedAt_covers. Qed.

Lemma extractContent_covers_witness :
  let doc :=
    mkNode DocumentNode [] []
      [mkNode ElementNode (lit "ul") []
         [mkNode ElementNode (lit "li") []
            [mkNode ElementNode (lit "p") [] []]]] in
  ∃ q, q ∈ emittedAt doc ∧ q `prefix_of` [0; 0; 0].
Proof.
  intros doc.
  apply (extractContent_covers doc [0; 0; 0] (mkNode ElementNode (lit "p") [] []));
    reflexivity.
Defined.

(** X19. Every emitted node is an element whose tag is one of [ul], [p],
    [h3], [h1], [h2] and [div]: text, comments, the doctype and the
    document node itself never become a fragment. *)
Theorem emitted_nodes_whitelisted (doc : Node) (p : path) :
  p ∈ emittedAt doc →
  ∃ n, nodeAt doc p = Some n
       ∧ Type_ n = ElementNode
       ∧ Data n ∈ [lit "ul"; lit "p"; lit "h3"; lit "h1"; lit "h2"; lit "div"].
Proof.
  intros [(n & Hn & Hacc) _]%elem_of_emittedAt.
  exists n. split; [done|]. by apply isTargetElement_whitelist.
Qed.

Lemma emitted_nodes_whitelisted_witness :
  let doc :=
    mkNode DocumentNode [] []
      [mkNode CommentNode (lit "p") [] [];
       mkNode ElementNode (lit "h2") [] []] in
  ∃ n, nodeAt doc [1] = Some n
       ∧ Type_ n = ElementNode
       ∧ Data n ∈ [lit "ul"; lit "p"; lit "h3"; lit "h1"; lit "h2"; lit "div"].
Proof.
  intros doc. apply emitted_nodes_whitelisted.
  assert (emittedAt doc = [[1]]) as -> by reflexivity. by left.
Defined.

(** ** File names *)
Section PathFacts.

Import strings filepath.

Lemma HasSuffix_iff (s suffix : bytes) :
  HasSuffix s suffix = true ↔ ∃ t, s = t ++ suffix.
Proof.
  unfold HasSuffix. rewrite andb_true_iff, !bool_decide_eq_true. split.
  - intros [Hlen Hdrop]. exists (take (length s - length suffix) s).
    rewrite <- Hdrop at 2. by rewrite take_drop.
  - intros [t ->]. rewrite length_app. split; [lia|].
    replace (length t + length suffix - length suffix) with (length t) by lia.
    by rewrite drop_app_length.
Qed.

Lemma TrimSuffix_app (t suffix : bytes) : TrimSuffix (t ++ suffix) suffix = t.
Proof.
  unfold TrimSuffix.
  rewrite (proj2 (HasSuffix_iff (t ++ suffix) suffix)) by eauto.
  rewrite length_app.
  replace (length t + length suffix - length suffix) with (length t) by lia.
  by rewrite take_app_length.
Qed.

Lemma TrimSuffix_none (s suffix : bytes) :
  HasSuffix s suffix = false → TrimSuffix s suffix = s.
Proof. intros H. unfold TrimSuffix. by rewrite H. Qed.

Lemma lookup_middle_plus (a : bytes) x (b : bytes) k :
  (a ++ x :: b) !! (length a + 1 + k) = b !! k.
Proof.
  rewrite lookup_app_r by lia.
  replace (length a + 1 + k - length a) with (S k) by lia. done.
Qed.

(** With a byte other than the slash at its end a path has no trailing
    slash to strip. *)
Lemma stripTrailing_tail (a b : bytes) :
  b ≠ [] → "/" ∉ b →
  stripTrailing (length (a ++ b)) (a ++ b) = a ++ b.
Proof.
  intros Hb Hno. destruct (exists_last Hb) as (b' & z & ->).
  rewrite app_assoc. set (q := a ++ b').
  rewrite length_app. simpl. rewrite Nat.add_1_r. cbn [stripTrailing].
  rewrite lookup_app_r, Nat.sub_diag by lia. simpl.
  unfold IsPathSeparator. rewrite bool_decide_eq_false_2.
  - rewrite <- (Nat.add_1_r (length q)).
    change 1 with (length [z]). by rewrite <- length_app, take_ge.
  - intros ->. apply Hno. rewrite elem_of_app, list_elem_of_singleton. auto.
Qed.

Lemma lastElement_scan (d e : bytes) (k : nat) :
  "/" ∉ e → k ≤ length e →
  lastElement (length d + 1 + k) (d ++ "/" :: e) = e.
Proof.
  intros Hno. induction k as [|k IH]; intros Hk.
  - rewrite Nat.add_0_r, Nat.add_1_r. cbn [lastElement].
    rewrite list_lookup_middle by done. simpl.
    replace (d ++ "/" :: e) with ((d ++ ["/"]) ++ e) by (by rewrite <- app_assoc).
    replace (S (length d)) with (length (d ++ ["/"]))
      by (rewrite length_app; simpl; lia).
    by rewrite drop_app_length.
  - replace (length d + 1 + S k) with (S (length d + 1 + k)) by lia.
    cbn [lastElement]. rewrite lookup_middle_plus.
    destruct (e !! k) as [c|] eqn:Hc; [|apply lookup_ge_None in Hc; lia].
    unfold IsPathSeparator. rewrite bool_decide_eq_false_2; [apply IH; lia|].
    intros ->. apply Hno. by eapply list_elem_of_lookup_2.
Qed.

Lemma lastElement_no_sep (e : bytes) (k : nat) :
  "/" ∉ e → lastElement k e = e.
Proof.
  intros Hno. induction k as [|k IH]; [done|]. cbn [lastElement].
  destruct (e !! k) as [c|] eqn:Hc; [|done].
  unfold IsPathSeparator. rewrite bool_decide_eq_false_2; [done|].
  intros ->. apply Hno. by eapply list_elem_of_lookup_2.
Qed.

Lemma extLoop_scan (name ext : bytes) (k : nat) :
  "/" ∉ ext → "." ∉ ext → k ≤ length ext →
  extLoop (length name + 1 + k) (name ++ "." :: ext) = "." :: ext.
Proof.
  intros Hsep Hdot. induction k as [|k IH]; intros Hk.
  - rewrite Nat.add_0_r, Nat.add_1_r. cbn [extLoop].
    rewrite list_lookup_middle by done. simpl.
    by rewrite drop_app_length.
  - replace (length name + 1 + S k) with (S (length name + 1 + k)) by lia.
    cbn [extLoop]. rewrite lookup_middle_plus.
    destruct (ext !! k) as [c|] eqn:Hc; [|apply lookup_ge_None in Hc; lia].
    apply list_elem_of_lookup_2 in Hc.
    unfold IsPathSeparator.
    rewrite !bool_decide_eq_false_2; [apply IH; lia|congruence..].
Qed.

Lemma Ext_name_ext (name ext : bytes) :
  "/" ∉ ext → "." ∉ ext → Ext (name ++ "." :: ext) = "." :: ext.
Proof.
  intros Hsep Hdot. unfold Ext. rewrite length_app. simpl.
  replace (length name + S (length ext)) with (length name + 1 + length ext)
    by lia.
  by apply extLoop_scan.
Qed.

End PathFacts.

Lemma Base_last_element (a e : bytes) :
  e ≠ [] → "/" ∉ e →
  (a = [] ∨ ∃ dir, a = dir ++ ["/"]) →
  filepath.Base (a ++ e) = e.
Proof.
  intros He Hno Ha. unfold filepath.Base.
  rewrite bool_decide_eq_false_2 by (destruct a, e; done).
  rewrite stripTrailing_tail by done.
  assert (filepath.lastElement (length (a ++ e)) (a ++ e) = e) as ->.
  { destruct Ha as [->|[dir ->]].
    - by apply lastElement_no_sep.
    - rewrite <- app_assoc. simpl. rewrite length_app. simpl.
      replace (length dir + S (length e)) with (length dir + 1 + length e) by lia.
      by apply lastElement_scan. }
  by rewrite bool_decide_eq_false_2.
Qed.

(** X20. The intermediate document never has the path of the input: its
    path ends in "_processed.html" and is longer than the input path.
    For an input path ending in ".html" that suffix is replaced; for any
    other (an upper-case ".HTML", which the walk also accepts) the marker
    is appended to the whole path. *)
Theorem outputFile_distinct (inputFile : bytes) :
  outputFile inputFile ≠ inputFile
  ∧ length inputFile < length (outputFile inputFile)
  ∧ strings.HasSuffix (outputFile inputFile) (lit "_processed.html") = true
  ∧ (∀ stem, inputFile = stem ++ lit ".html" →
             outputFile inputFile = stem ++ lit "_processed.html")
  ∧ (strings.HasSuffix inputFile (lit ".html") = false →
     outputFile inputFile = inputFile ++ lit "_processed.html").
Proof.
  assert (length inputFile < length (outputFile inputFile)) as Hlen.
  { unfold outputFile.
    destruct (strings.HasSuffix inputFile (lit ".html")) eqn:E.
    - apply HasSuffix_iff in E as [stem ->]. rewrite TrimSuffix_app.
      rewrite !length_app. simpl. lia.
    - rewrite TrimSuffix_none by done. rewrite length_app. simpl. lia. }
  split; [intros Heq; rewrite Heq in Hlen; lia|].
  split; [done|]. split; [apply HasSuffix_iff; unfold outputFile; eauto|].
  split.
  - intros stem ->. unfold outputFile. by rewrite TrimSuffix_app.
  - intros Hno. unfold outputFile. by rewrite TrimSuffix_none.
Qed.

Lemma outputFile_distinct_witness :
  outputFile (lit "in/a" ++ lit ".html") = lit "in/a" ++ lit "_processed.html"
  ∧ outputFile (lit "in/a.HTML") = lit "in/a.HTML" ++ lit "_processed.html".
Proof.
  split.
  - destruct (outputFile_distinct (lit "in/a" ++ lit ".html"))
      as (_ & _ & _ & Hstem & _).
    by apply Hstem.
  - destruct (outputFile_distinct (lit "in/a.HTML")) as (_ & _ & _ & _ & Hno).
    by apply Hno.
Defined.

(** X21. The name the title is made from is the last element of the
    input path without its extension: for a path [dir/name.ext], or a
    bare [name.ext], with no slash in [name] and neither slash nor dot in
    [ext], it is [name], whatever the directory and whatever the case of
    the extension; dots inside [name] stay. *)
Theorem fileNameWithoutExt_name (name ext : bytes) :
  "/" ∉ name → "/" ∉ ext → "." ∉ ext →
  fileNameWithoutExt (name ++ "." :: ext) = name
  ∧ ∀ dir : bytes, fileNameWithoutExt (dir ++ "/" :: name ++ "." :: ext) = name.
Proof.
  intros Hname Hext Hdot.
  assert ("/" ∉ name ++ "." :: ext) as Hno.
  { rewrite not_elem_of_app, not_elem_of_cons. split; [done|].
    split; [discriminate|done]. }
  assert (name ++ "." :: ext ≠ []) as Hne by (by destruct name).
  split; [|intros dir]; unfold fileNameWithoutExt.
  - pose proof (Base_last_element [] (name ++ "." :: ext) Hne Hno) as HB.
    simpl in HB. rewrite !HB by auto.
    rewrite Ext_name_ext by done. apply TrimSuffix_app.
  - replace (dir ++ "/" :: name ++ "." :: ext)
      with ((dir ++ ["/"]) ++ name ++ "." :: ext)
      by (by rewrite <- app_assoc).
    rewrite Base_last_element by eauto.
    rewrite Ext_name_ext by done. apply TrimSuffix_app.
Qed.

Lemma fileNameWithoutExt_name_witness :
  fileNameWithoutExt (lit "site/jp" ++ "/" :: lit "tokyo.city-guide" ++ "." :: lit "HTML")
  = lit "tokyo.city-guide".
Proof.
  destruct (fileNameWithoutExt_name (lit "tokyo.city-guide") (lit "HTML"))
    as [_ Hdir]; [by apply not_elem_of_bytes..|].
  apply Hdir.
Defined.
